(** * e2e_timewalker: capture and replay of terminal sessions

    A shallow embedding of the capture-and-replay engine of
    [kimi_cli.e2e_timewalker] (pty_runner.py, recording.py, replay.py,
    script.py) together with the properties its specification states.

    Python [int] is [Z], [bytes] is [list byte], [str] is a list of
    Unicode code points, [None]-able fields are [option]s, exceptions
    are values of [exn] carried in a sum. *)

From Stdlib Require Import ZArith NArith QArith List Bool Lia Lqa.
From Stdlib.Strings Require Import Ascii String Byte.
From stdpp Require Import base option list gmap.

Local Open Scope Z_scope.

(** ** Python values *)

(** A Python [str]: its code points, in order. *)
Definition pystr : Type := list N.

(** A Python [bytes] object. *)
Definition pybytes : Type := list byte.

(** The text of an ASCII literal of the source. *)
Definition py (s : string) : pystr :=
  map (fun a : ascii => N_of_ascii a) (list_ascii_of_string s).

(** A [bytes] literal given by the values of its bytes. *)
Definition bytes_lit (l : list N) : pybytes :=
  omap Byte.of_N l.

(** The exceptions the modelled code raises. *)
Inductive exn : Type :=
| ValueError (msg : pystr)
| TimeoutError (msg : pystr)
| RuntimeError (msg : pystr)
| UnicodeEncodeError
| ReError.

(** [len(x)] as a Python integer. *)
Definition len {A} (l : list A) : Z := Z.of_nat (length l).

(** [s[-k:]] for a positive literal [k]: the last [k] items, all of [s]
    when it is shorter. *)
Definition slice_last {A} (k : nat) (s : list A) : list A :=
  drop (length s - k)%nat s.

(** [s[1:-1]]. *)
Definition slice_inner {A} (s : list A) : list A :=
  drop 1 (take (length s - 1)%nat s).

(** [needle in hay] on strings: [needle] occurs as a contiguous run. *)
Fixpoint starts_with (needle hay : pystr) : bool :=
  match needle, hay with
  | [], _ => true
  | _ :: _, [] => false
  | a :: needle', b :: hay' => (a =? b)%N && starts_with needle' hay'
  end.

Fixpoint py_in (needle hay : pystr) : bool :=
  starts_with needle hay ||
  match hay with
  | [] => false
  | _ :: hay' => py_in needle hay'
  end.

(** ** UTF-8 *)

Module utf8.

Definition is_continuation (b : N) : bool := (N.land b 192 =? 128)%N.

Definition cp2 (b0 b1 : N) : N :=
  N.lor (N.shiftl (N.land b0 31) 6) (N.land b1 63).

Definition cp3 (b0 b1 b2 : N) : N :=
  N.lor (N.shiftl (N.land b0 15) 12)
        (N.lor (N.shiftl (N.land b1 63) 6) (N.land b2 63)).

Definition cp4 (b0 b1 b2 b3 : N) : N :=
  N.lor (N.shiftl (N.land b0 7) 18)
   (N.lor (N.shiftl (N.land b1 63) 12)
     (N.lor (N.shiftl (N.land b2 63) 6) (N.land b3 63))).

(** [bytes.decode("utf-8", errors="ignore")] on the byte values: a
    well-formed sequence yields its code point; an invalid start byte
    is dropped; a sequence broken by a byte that cannot continue it is
    dropped up to that byte, which is decoded afresh; a sequence cut
    short by the end of the data is dropped. *)
Fixpoint decode_values (s : list N) : pystr :=
  match s with
  | [] => []
  | b0 :: r0 =>
    if (b0 <? 128)%N then b0 :: decode_values r0
    else if (b0 <? 194)%N then decode_values r0
    else if (b0 <? 224)%N then
      match r0 with
      | [] => []
      | b1 :: r1 =>
        if is_continuation b1 then cp2 b0 b1 :: decode_values r1
        else decode_values r0
      end
    else if (b0 <? 240)%N then
      match r0 with
      | [] => []
      | b1 :: r1 =>
        if negb (is_continuation b1)
           || (if (b1 <? 160)%N then (b0 =? 224)%N else (b0 =? 237)%N)
        then decode_values r0
        else
          match r1 with
          | [] => []
          | b2 :: r2 =>
            if is_continuation b2 then cp3 b0 b1 b2 :: decode_values r2
            else decode_values r1
          end
      end
    else if (b0 <? 245)%N then
      match r0 with
      | [] => []
      | b1 :: r1 =>
        if negb (is_continuation b1)
           || (if (b1 <? 144)%N then (b0 =? 240)%N else (b0 =? 244)%N)
        then decode_values r0
        else
          match r1 with
          | [] => []
          | b2 :: r2 =>
            if negb (is_continuation b2) then decode_values r1
            else
              match r2 with
              | [] => []
              | b3 :: r3 =>
                if is_continuation b3
                then cp4 b0 b1 b2 b3 :: decode_values r3
                else decode_values r2
              end
          end
      end
    else decode_values r0
  end.

Definition decode_ignore (chunk : pybytes) : pystr :=
  decode_values (map Byte.to_N chunk).

(** The bytes of one code point under [str.encode()] (strict UTF-8):
    surrogates and values past U+10FFFF cannot be encoded. *)
Definition encode_cp (c : N) : option (list N) :=
  if (c <? 128)%N then Some [c]
  else if (c <? 2048)%N then
    Some [N.lor 192 (N.shiftr c 6); N.lor 128 (N.land c 63)]
  else if (55296 <=? c)%N && (c <? 57344)%N then None
  else if (c <? 65536)%N then
    Some [N.lor 224 (N.shiftr c 12);
          N.lor 128 (N.land (N.shiftr c 6) 63);
          N.lor 128 (N.land c 63)]
  else if (c <? 1114112)%N then
    Some [N.lor 240 (N.shiftr c 18);
          N.lor 128 (N.land (N.shiftr c 12) 63);
          N.lor 128 (N.land (N.shiftr c 6) 63);
          N.lor 128 (N.land c 63)]
  else None.

Fixpoint encode_values (s : pystr) : option (list N) :=
  match s with
  | [] => Some []
  | c :: s' =>
    match encode_cp c, encode_values s' with
    | Some bs, Some rest => Some (bs ++ rest)
    | _, _ => None
    end
  end.

Definition encode (s : pystr) : option pybytes :=
  match encode_values s with
  | Some vs => Some (bytes_lit vs)
  | None => None
  end.

End utf8.

(** ** pty_runner.py *)

Module pty_runner.

Record PtySize := { rows : Z; cols : Z }.

Definition PtySize_default : PtySize := {| rows := 24; cols := 80 |}.

Record PtyExitStatus := {
  returncode : option Z;
  signal : option Z
}.

(** [self.returncode == 0 and self.signal is None] *)
Definition succeeded (st : PtyExitStatus) : bool :=
  match returncode st with
  | Some rc => (rc =? 0) && match signal st with None => true | Some _ => false end
  | None => false
  end.

(** What [proc.wait(timeout=timeout)] did: it raised
    [subprocess.TimeoutExpired], or it returned and left
    [proc.returncode] as given. *)
Inductive proc_wait :=
| TimeoutExpired
| Returned (returncode : option Z).

(** [PtySessionRunner.wait], given the runner's [_process] ([None]
    before [__enter__] and after [__exit__]) and what waiting on it
    did. *)
Definition wait (process : option proc_wait) : exn + PtyExitStatus :=
  match process with
  | None => inl (RuntimeError (py "Process is not running"))
  | Some TimeoutExpired =>
      inl (TimeoutError (py "Subprocess did not exit within timeout"))
  | Some (Returned None) =>
      inr {| returncode := None; signal := None |}
  | Some (Returned (Some rc)) =>
      if rc <? 0
      then inr {| returncode := None; signal := Some (Z.abs rc) |}
      else inr {| returncode := Some rc; signal := None |}
  end.

(** [struct.pack("HHHH", rows, cols, 0, 0)] takes unsigned 16-bit
    values only. *)
Definition ushort (n : Z) : bool := (0 <=? n) && (n <=? 65535).

(** [_apply_winsize] on an open PTY: the window size set by the
    [ioctl], [None] for the [struct.error] of [struct.pack]. *)
Definition _apply_winsize (size : PtySize) : option PtySize :=
  if ushort (rows size) && ushort (cols size) then Some size else None.

(** [resize] *)
Definition resize (size : PtySize) : option PtySize := _apply_winsize size.

End pty_runner.

(** ** recording.py *)

Module recording.

Record Keyframe := {
  label : pystr;
  offset : Z;
  timestamp : Q  (* seconds since the epoch *)
}.

(** The file object of the recorder: the bytes that reached the file,
    the bytes still in the writer's buffer, and whether it is closed. *)
Record pyfile := {
  on_disk : pybytes;
  pending : pybytes;
  closed : bool
}.

(** [path.open("wb")]: the file is created or truncated. *)
Definition open_wb : pyfile :=
  {| on_disk := []; pending := []; closed := false |}.

Definition file_write (f : pyfile) (chunk : pybytes) : exn + pyfile :=
  if closed f then inl (ValueError (py "write to closed file"))
  else inr {| on_disk := on_disk f; pending := pending f ++ chunk;
              closed := false |}.

Definition file_flush (f : pyfile) : pyfile :=
  {| on_disk := on_disk f ++ pending f; pending := []; closed := closed f |}.

Definition file_close (f : pyfile) : pyfile :=
  {| on_disk := on_disk f ++ pending f; pending := []; closed := true |}.

Record AnsiStreamRecorder := {
  _file : pyfile;
  _offset : Z
}.

(** [AnsiStreamRecorder(path)] *)
Definition new : AnsiStreamRecorder :=
  {| _file := open_wb; _offset := 0 |}.

(** [append]: the value returned (or the exception raised) and the
    recorder afterwards. *)
Definition append (r : AnsiStreamRecorder) (chunk : pybytes)
  : (exn + Z) * AnsiStreamRecorder :=
  match chunk with
  | [] => (inr (_offset r), r)
  | _ :: _ =>
    match file_write (_file r) chunk with
    | inl e => (inl e, r)
    | inr f =>
      let r' := {| _file := f; _offset := _offset r + len chunk |} in
      (inr (_offset r'), r')
    end
  end.

Definition close (r : AnsiStreamRecorder) : AnsiStreamRecorder :=
  if closed (_file r) then r
  else {| _file := file_close (file_flush (_file r)); _offset := _offset r |}.

(** A run of [append] calls: the values returned, in call order, and the
    recorder afterwards; it stops at the first exception. *)
Fixpoint append_all (r : AnsiStreamRecorder) (chunks : list pybytes)
  : exn + (list Z * AnsiStreamRecorder) :=
  match chunks with
  | [] => inr ([], r)
  | c :: chunks' =>
    match append r c with
    | (inl e, _) => inl e
    | (inr o, r') =>
      match append_all r' chunks' with
      | inl e => inl e
      | inr (os, r'') => inr (o :: os, r'')
      end
    end
  end.

(** The contents of the file at the recorder's path once the recorder
    is closed. *)
Definition persisted (r : AnsiStreamRecorder) : pybytes :=
  on_disk (_file (close r)).

(** *** KeyframeRegistry *)

Record KeyframeRegistry := { _records : list Keyframe }.

(** [KeyframeRegistry(recorder, json_path)] *)
Definition KeyframeRegistry_new : KeyframeRegistry := {| _records := [] |}.

(** [mark], on the recorder the registry was built with, when
    [time.time()] reads [now]: the frame returned and the registry
    afterwards. *)
Definition mark (recorder : AnsiStreamRecorder) (now : Q) (label : pystr)
    (reg : KeyframeRegistry) : Keyframe * KeyframeRegistry :=
  let frame := {| label := label; offset := _offset recorder;
                  timestamp := now |} in
  (frame, {| _records := _records reg ++ [frame] |}).

Definition extend (frames : list Keyframe) (reg : KeyframeRegistry)
  : KeyframeRegistry :=
  {| _records := _records reg ++ frames |}.

Definition clear (reg : KeyframeRegistry) : KeyframeRegistry :=
  {| _records := [] |}.

(** The calls a client makes on a recorder and on the registry built on
    it. *)
Inductive recording_call :=
| CallAppend (chunk : pybytes)
| CallMark (label : pystr) (now : Q)
| CallClose.

(** One call; an [append] that raises leaves the recorder as it was. *)
Definition call (c : recording_call)
    (st : AnsiStreamRecorder * KeyframeRegistry)
  : AnsiStreamRecorder * KeyframeRegistry :=
  match c with
  | CallAppend chunk => (snd (append (fst st) chunk), snd st)
  | CallMark label now => (fst st, snd (mark (fst st) now label (snd st)))
  | CallClose => (close (fst st), snd st)
  end.

Definition calls (cs : list recording_call)
    (st : AnsiStreamRecorder * KeyframeRegistry)
  : AnsiStreamRecorder * KeyframeRegistry :=
  foldl (fun st c => call c st) st cs.

End recording.

(** ** replay.py *)

Module replay.

Import pty_runner recording.

(** *** The two patterns

    A pattern is modelled by its matcher at the start of a text: the
    text matched and the text that follows it, or [None]. *)

(** The start of each run of ten decimal digits (category Nd) of the
    Unicode character database (version 15), the characters [\d]
    matches in a [str] pattern. *)
Definition decimal_runs : list N :=
  [ 48; 1632; 1776; 1984; 2406; 2534; 2662; 2790; 2918; 3046; 3174;
    3302; 3430; 3558; 3664; 3792; 3872; 4160; 4240; 6112; 6160; 6470;
    6608; 6784; 6800; 6992; 7088; 7232; 7248; 42528; 43216; 43264;
    43472; 43504; 43600; 44016; 65296; 66720; 68912; 69734; 69872;
    69942; 70096; 70384; 70736; 70864; 71248; 71360; 71472; 71904;
    72016; 72784; 73040; 73120; 73552; 92768; 92864; 93008; 120782;
    120792; 120802; 120812; 120822; 123200; 123632; 124144; 125264;
    130032 ]%N.

Definition unicode_decimal (c : N) : bool :=
  existsb (fun lo => (lo <=? c)%N && (c <? lo + 10)%N) decimal_runs.

(** [[\d;]] *)
Definition dec_param (c : N) : bool := unicode_decimal c || (c =? 59)%N.

(** [[hl]] *)
Definition dec_final (c : N) : bool := (c =? 104)%N || (c =? 108)%N.

(** [[\d;]*[hl]]: the star takes a character when the rest can still
    match, and gives way to the final letter otherwise. *)
Fixpoint dec_params_final (s : pystr) : option (pystr * pystr) :=
  match s with
  | [] => None
  | c :: s' =>
    let final := if dec_final c then Some ([c], s') else None in
    if dec_param c then
      match dec_params_final s' with
      | Some (m, rest) => Some (c :: m, rest)
      | None => final
      end
    else final
  end.

(** [_DEC_PRIVATE_RE]: ESC, the bracket, the question mark, parameters, [h] or [l] *)
Definition _DEC_PRIVATE_RE (s : pystr) : option (pystr * pystr) :=
  match s with
  | c0 :: c1 :: c2 :: s' =>
    if (c0 =? 27)%N && (c1 =? 91)%N && (c2 =? 63)%N then
      match dec_params_final s' with
      | Some (m, rest) => Some (c0 :: c1 :: c2 :: m, rest)
      | None => None
      end
    else None
  | _ => None
  end.

(** The terminator of an OSC sequence at the start of [s]: BEL, or ESC
    and a backslash. *)
Definition osc_terminator (s : pystr) : option (pystr * pystr) :=
  match s with
  | c :: s' =>
    if (c =? 7)%N then Some ([c], s')
    else
      match s' with
      | d :: s'' =>
        if (c =? 27)%N && (d =? 92)%N then Some ([c; d], s'') else None
      | [] => None
      end
  | [] => None
  end.

(** [.*?(?:BEL|ESC \)] with DOTALL: the lazy star stops at the first
    place where a terminator matches. *)
Fixpoint osc_body_terminator (s : pystr) : option (pystr * pystr) :=
  match osc_terminator s with
  | Some r => Some r
  | None =>
    match s with
    | [] => None
    | c :: s' =>
      match osc_body_terminator s' with
      | Some (m, rest) => Some (c :: m, rest)
      | None => None
      end
    end
  end.

(** [_OSC_RE] *)
Definition _OSC_RE (s : pystr) : option (pystr * pystr) :=
  match s with
  | c0 :: c1 :: s' =>
    if (c0 =? 27)%N && (c1 =? 93)%N then
      match osc_body_terminator s' with
      | Some (m, rest) => Some (c0 :: c1 :: m, rest)
      | None => None
      end
    else None
  | _ => None
  end.

(** [pattern.sub(repl, text)] for a pattern that matches no empty text
    and a replacement function that updates a state [St] (the list the
    closure appends to): matches are looked for from left to right,
    each at the first place after the previous one. *)
Section sub.
Context {St : Type}.
Variable pattern : pystr -> option (pystr * pystr).
Variable repl : pystr -> St -> pystr * St.

Fixpoint sub_from (fuel : nat) (s : pystr) (st : St) : pystr * St :=
  match fuel with
  | O => (s, st)
  | S fuel' =>
    match s with
    | [] => ([], st)
    | c :: s' =>
      match pattern s with
      | Some (m, rest) =>
        let '(r, st1) := repl m st in
        let '(out, st2) := sub_from fuel' rest st1 in
        (r ++ out, st2)
      | None =>
        let '(out, st1) := sub_from fuel' s' st in
        (c :: out, st1)
      end
    end
  end.

Definition sub (s : pystr) (st : St) : pystr * St :=
  sub_from (length s) s st.
End sub.

(** *** Normalizer *)

Record TerminalCapabilities := {
  supports_dec_private : bool;
  allow_osc : bool
}.


Record ParseWarning := {
  kind : pystr;
  original : pystr;
  normalized : option pystr;
  message : option pystr
}.

Record WarningEntry := {
  entry_offset : Z;
  warning : ParseWarning
}.

Definition hex_digit (d : N) : N :=
  if (d <? 10)%N then (48 + d)%N else (87 + d)%N.

(** [\uXXXX] *)
Definition u_escape (n : N) : pystr :=
  [92; 117; hex_digit (N.land (N.shiftr n 12) 15);
   hex_digit (N.land (N.shiftr n 8) 15);
   hex_digit (N.land (N.shiftr n 4) 15);
   hex_digit (N.land n 15)]%N.

(** One character of [json.dumps] of a string (ASCII output). *)
Definition json_escape_char (c : N) : pystr :=
  if (c =? 34)%N then [92; 34]%N
  else if (c =? 92)%N then [92; 92]%N
  else if (c =? 10)%N then [92; 110]%N
  else if (c =? 13)%N then [92; 114]%N
  else if (c =? 9)%N then [92; 116]%N
  else if (c =? 12)%N then [92; 102]%N
  else if (c =? 8)%N then [92; 98]%N
  else if (32 <=? c)%N && (c <=? 126)%N then [c]
  else if (c <? 65536)%N then u_escape c
  else
    let n := (c - 65536)%N in
    u_escape (N.lor 55296 (N.land (N.shiftr n 10) 1023))
    ++ u_escape (N.lor 56320 (N.land n 1023)).

Definition json_dumps (s : pystr) : pystr :=
  [34%N] ++ flat_map json_escape_char s ++ [34%N].

Definition _repr_escape (seq : pystr) : pystr :=
  slice_inner (json_dumps seq).

Definition _dec_repl (caps : TerminalCapabilities)
    (m : pystr) (warnings : list ParseWarning) : pystr * list ParseWarning :=
  if supports_dec_private caps then (m, warnings)
  else
    ([], warnings ++ [ {| kind := py "dec-private";
                          original := _repr_escape m;
                          normalized := Some [];
                          message := None |} ]).

Definition _osc_repl (caps : TerminalCapabilities)
    (m : pystr) (warnings : list ParseWarning) : pystr * list ParseWarning :=
  if allow_osc caps then (m, warnings)
  else
    ([], warnings ++ [ {| kind := py "osc-suppressed";
                          original := _repr_escape m;
                          normalized := Some [];
                          message := None |} ]).

(** The two substitutions of [normalize], on the decoded text. *)
Definition normalize_text (caps : TerminalCapabilities) (text : pystr)
  : pystr * list ParseWarning :=
  let warnings := [] in
  let '(text, warnings) := sub _DEC_PRIVATE_RE (_dec_repl caps) text warnings in
  let '(text, warnings) := sub _OSC_RE (_osc_repl caps) text warnings in
  (text, warnings).

(** [PrivateSequenceHandler.normalize] *)
Definition normalize (caps : TerminalCapabilities) (chunk : pybytes)
  : pystr * list ParseWarning :=
  normalize_text caps (utf8.decode_ignore chunk).

(** *** Screen states *)

Record CellStyle := {
  char : pystr;
  fg : option pystr;
  bg : option pystr;
  bold : bool;
  reverse : bool
}.

Record ScreenState := {
  state_offset : Z;
  cursor_row : Z;
  cursor_col : Z;
  cells : list (list CellStyle)
}.

Record ReplayResult := {
  states : list ScreenState;
  warnings : list WarningEntry
}.

(** A character cell of the terminal emulator ([pyte.screens.Char]). *)
Record Char := {
  char_data : pystr;
  char_fg : pystr;
  char_bg : pystr;
  char_bold : bool;
  char_reverse : bool
}.

(** [Char(" ")] *)
Definition Char_blank : Char :=
  {| char_data := py " "; char_fg := py "default"; char_bg := py "default";
     char_bold := false; char_reverse := false |}.

(** The terminal emulator the parser drives ([pyte.Screen] with its
    [pyte.Stream]): only what [parse] and [_snapshot] use of it. *)
Class VtEngine := {
  Screen : Type;
  (** [pyte.Screen(columns, lines)] and [pyte.Stream(screen)] *)
  screen_new : Z -> Z -> Screen;
  (** [stream.feed(text)] *)
  feed : Screen -> pystr -> Screen;
  screen_lines : Screen -> Z;
  screen_columns : Screen -> Z;
  (** [screen.buffer.get(row, {}).get(col)] *)
  buffer_get : Screen -> Z -> Z -> option Char;
  cursor_x : Screen -> Z;
  cursor_y : Screen -> Z
}.

(** An emulator that only keeps the text it was fed, on an empty grid. *)
Definition TextLog : VtEngine := {|
  Screen := pystr;
  screen_new := fun _ _ => [];
  feed := fun scr text => scr ++ text;
  screen_lines := fun _ => 0;
  screen_columns := fun _ => 0;
  buffer_get := fun _ _ _ => None;
  cursor_x := fun scr => len scr;
  cursor_y := fun _ => 0
|}.

Section parser.
Context {vt : VtEngine}.

Definition _snapshot (screen : Screen) (offset : Z) : ScreenState :=
  let rows :=
    map (fun row_idx =>
      map (fun col_idx =>
        let char :=
          match buffer_get screen row_idx col_idx with
          | Some c => c
          | None => Char_blank
          end in
        let value :=
          match char_data char with
          | [] => py " "
          | _ :: _ => char_data char
          end in
        {| char := value;
           fg := Some (char_fg char);
           bg := Some (char_bg char);
           bold := char_bold char;
           reverse := char_reverse char |})
        (seqZ 0 (screen_columns screen)))
      (seqZ 0 (screen_lines screen)) in
  {| state_offset := offset;
     cursor_row := cursor_y screen;
     cursor_col := cursor_x screen;
     cells := rows |}.

Record AnsiReplayParser := {
  _size : PtySize;
  _handler : TerminalCapabilities;
  _collector : list WarningEntry;
  _bytes_consumed : Z
}.

(** [handle.read(chunk_size)] on the bytes not yet read: the chunk and
    what remains. A size of [-1] reads to the end of the file. *)
Definition handle_read (chunk_size : Z) (rest : pybytes)
  : exn + (pybytes * pybytes) :=
  if chunk_size <? -1
  then inl (ValueError (py "read length must be non-negative or -1"))
  else if chunk_size =? -1 then inr (rest, [])
  else inr (take (Z.to_nat chunk_size) rest,
            drop (Z.to_nat chunk_size) rest).

(** The local and instance variables the loop of [parse] updates. *)
Record parse_state := {
  ps_screen : Screen;
  ps_states : list ScreenState;
  ps_collector : list WarningEntry;
  ps_consumed : Z;
  ps_handle : pybytes
}.

(** The body of the loop of [parse] once a non-empty chunk [raw] was
    read, [rest] being what remains of the file. *)
Definition parse_chunk (caps : TerminalCapabilities) (st : parse_state)
    (raw rest : pybytes) : parse_state :=
  let '(normalized, warns) := normalize caps raw in
  let collector :=
    foldl (fun entries w =>
             entries ++ [ {| entry_offset := ps_consumed st;
                             warning := w |} ])
          (ps_collector st) warns in
  let consumed := ps_consumed st + len raw in
  match normalized with
  | [] =>
    {| ps_screen := ps_screen st; ps_states := ps_states st;
       ps_collector := collector; ps_consumed := consumed;
       ps_handle := rest |}
  | _ :: _ =>
    let screen := feed (ps_screen st) normalized in
    {| ps_screen := screen;
       ps_states := ps_states st ++ [_snapshot screen consumed];
       ps_collector := collector; ps_consumed := consumed;
       ps_handle := rest |}
  end.

(** The [while True] loop of [parse]; [None] when [fuel] iterations
    did not reach the [break]. *)
Fixpoint parse_loop (fuel : nat) (caps : TerminalCapabilities)
    (chunk_size : Z) (st : parse_state) : option (exn + parse_state) :=
  match fuel with
  | O => None
  | S fuel' =>
    match handle_read chunk_size (ps_handle st) with
    | inl e => Some (inl e)
    | inr ([], _) => Some (inr st)
    | inr (raw, rest) =>
      parse_loop fuel' caps chunk_size (parse_chunk caps st raw rest)
    end
  end.

(** [AnsiReplayParser.parse] on a file with contents [data]: the
    parser afterwards and the result. One iteration more than the
    file has bytes is always enough for the loop. *)
Definition parse (p : AnsiReplayParser) (data : pybytes) (chunk_size : Z)
  : option (exn + (AnsiReplayParser * ReplayResult)) :=
  let st0 := {| ps_screen := screen_new (cols (_size p)) (rows (_size p));
                ps_states := [];
                ps_collector := [];
                ps_consumed := 0;
                ps_handle := data |} in
  match parse_loop (S (length data)) (_handler p) chunk_size st0 with
  | None => None
  | Some (inl e) => Some (inl e)
  | Some (inr st) =>
    Some (inr ({| _size := _size p; _handler := _handler p;
                  _collector := ps_collector st;
                  _bytes_consumed := ps_consumed st |},
               {| states := ps_states st;
                  warnings := ps_collector st |}))
  end.
End parser.

(** *** Keyframe correlation *)

Definition _locate_state (states : list ScreenState) (offset : Z)
  : option ScreenState :=
  match List.find (fun state => offset <=? state_offset state) states with
  | Some state => Some state
  | None => last states
  end.

Definition extract_keyframes (states : list ScreenState)
    (keyframes : list Keyframe) : gmap pystr ScreenState :=
  match states with
  | [] => ∅
  | _ :: _ =>
    foldl (fun mapping frame =>
             match _locate_state states (offset frame) with
             | Some candidate => <[label frame := candidate]> mapping
             | None => mapping
             end)
          ∅ keyframes
  end.

(** [ScreenState.text_lines] *)
Definition text_lines (state : ScreenState) : list pystr :=
  map (fun row => concat (map char row)) (cells state).

(** *** HtmlRenderer: colours *)

Definition _DEFAULT_PALETTE : gmap pystr pystr :=
  list_to_map
    [ (py "default", py "#d0d0d0"); (py "default_bg", py "#000000");
      (py "black", py "#000000"); (py "red", py "#d70000");
      (py "green", py "#5f8700"); (py "brown", py "#875f00");
      (py "yellow", py "#ffd700"); (py "blue", py "#005faf");
      (py "magenta", py "#af005f"); (py "cyan", py "#00afaf");
      (py "white", py "#ffffff"); (py "brightblack", py "#585858");
      (py "brightred", py "#ff5f5f"); (py "brightgreen", py "#87ff5f");
      (py "brightyellow", py "#ffffaf"); (py "brightblue", py "#5fd7ff");
      (py "brightmagenta", py "#ff87ff"); (py "brightcyan", py "#5fffff");
      (py "brightwhite", py "#ffffff") ].

(** The [_palette] of [HtmlRenderer(palette)]: the entries of [palette]
    over the default ones. *)
Definition HtmlRenderer_palette (palette : option (gmap pystr pystr))
  : gmap pystr pystr :=
  let palette := match palette with Some p => p | None => ∅ end in
  palette ∪ _DEFAULT_PALETTE.

(** [_resolve_color]; [None] stands for the [KeyError] of
    [self._palette["default"]], which is looked up first. *)
Definition _resolve_color (_palette : gmap pystr pystr) (name : pystr)
  : option pystr :=
  match _palette !! py "default" with
  | None => None
  | Some fallback =>
    match _palette !! name with
    | Some colour => Some colour
    | None => Some fallback
    end
  end.

End replay.

(** ** script.py *)

Module script.

Import pty_runner recording.

(** What the code uses of the Python runtime: the [re] module on the
    patterns of a condition, and [repr] of strings and of callables. *)
Class PyRuntime := {
  (** [re.compile(pattern)] does not raise *)
  re_compiles : pystr -> bool;
  (** [re.search(pattern, text)] finds a match *)
  re_search : pystr -> pystr -> bool;
  repr_str : pystr -> pystr;
  repr_callable : (pystr -> bool) -> pystr
}.

(** A runtime whose patterns are literal texts. *)
Definition LiteralRuntime : PyRuntime := {|
  re_compiles := fun _ => true;
  re_search := py_in;
  repr_str := fun s => [39%N] ++ s ++ [39%N];
  repr_callable := fun _ => py "<function>"
|}.

(** *** OutputBuffer *)

Record OutputBuffer := { _buffer : pybytes }.

Definition OutputBuffer_new : OutputBuffer := {| _buffer := [] |}.

Definition buffer_append (b : OutputBuffer) (chunk : pybytes) : OutputBuffer :=
  match chunk with
  | [] => b
  | _ :: _ => {| _buffer := _buffer b ++ chunk |}
  end.

Definition snapshot (b : OutputBuffer) : pybytes := _buffer b.

Definition _decode_locked (b : OutputBuffer) : pystr :=
  utf8.decode_ignore (_buffer b).

Definition as_text (b : OutputBuffer) : pystr := _decode_locked b.

(** The buffer is filled by the pump thread while the driver waits on
    it. A call of [wait_until] is run against the history of the
    buffer, which gives the buffer at each reading of the monotonic
    clock (in seconds), and the readings [evals] of the clock in the
    successive passes through the loop: a pass holds the lock,
    evaluates the predicate on the buffer of that instant and reads the
    clock; between two passes the thread sleeps in [Condition.wait]
    until it is notified or its timeout expires. *)
Fixpoint wait_loop (predicate : pystr -> bool) (deadline : Q)
    (history : Q -> OutputBuffer) (evals : list Q) : option bool :=
  match evals with
  | [] => None
  | now :: evals' =>
    if predicate (_decode_locked (history now)) then Some true
    else
      let remaining := (deadline - now)%Q in
      if Qle_bool remaining 0 then Some false
      else wait_loop predicate deadline history evals'
  end.

(** [wait_until(predicate, timeout)] called when the clock reads
    [start]; [None] when the call is still waiting after the passes of
    [evals]. *)
Definition wait_until (history : Q -> OutputBuffer) (start : Q)
    (evals : list Q) (predicate : pystr -> bool) (timeout : Q) : option bool :=
  let deadline := (start + timeout)%Q in
  wait_loop predicate deadline history evals.

Section driver.
Context {rt : PyRuntime}.

(** *** OutputCondition *)

Record OutputCondition := {
  contains : option pystr;
  regex : option pystr;
  predicate : option (pystr -> bool)
}.

(** The constructor with its [__post_init__]. *)
Definition OutputCondition_new (contains regex : option pystr)
    (predicate : option (pystr -> bool)) : exn + OutputCondition :=
  let self := {| contains := contains; regex := regex;
                 predicate := predicate |} in
  match contains, regex, predicate with
  | None, None, None =>
    inl (ValueError (py "At least one condition must be provided"))
  | _, _, _ =>
    match regex with
    | Some pattern => if re_compiles pattern then inr self else inl ReError
    | None => inr self
    end
  end.

(** [matches]; each field is first tested for truth, and an empty
    string is false. *)
Definition matches (self : OutputCondition) (text : pystr) : bool :=
  if match contains self with
     | Some ((_ :: _) as needle) => py_in needle text
     | _ => false
     end
  then true
  else if match regex self with
          | Some ((_ :: _) as pattern) => re_search pattern text
          | _ => false
          end
  then true
  else if match predicate self with
          | Some f => f text
          | None => false
          end
  then true
  else false.

(** [sep.join(parts)] *)
Fixpoint join (sep : pystr) (parts : list pystr) : pystr :=
  match parts with
  | [] => []
  | [part] => part
  | part :: parts' => part ++ sep ++ join sep parts'
  end.

Definition OutputCondition_repr (self : OutputCondition) : pystr :=
  let parts :=
    match contains self with
    | Some c => [py "contains=" ++ repr_str c]
    | None => []
    end ++
    match regex self with
    | Some r => [py "regex=" ++ repr_str r]
    | None => []
    end ++
    match predicate self with
    | Some f => [py "predicate=" ++ repr_callable f]
    | None => []
    end in
  py "OutputCondition(" ++ join (py ", ") parts ++ py ")".

(** *** Steps *)

Record InputStep := {
  payload : pystr;
  mark : option pystr;
  expect : option OutputCondition;
  expect_timeout : option Q;
  delay : Q;
  send_newline : bool
}.

Record WaitStep := {
  condition : OutputCondition;
  timeout : Q
}.

(** A step of the driver: one of the four classes of [Step], or an
    object of another class, of which the [repr] of its type is
    kept. *)
Inductive Step :=
| StepInput (step : InputStep)
| StepWait (step : WaitStep)
| StepMark (label : pystr)
| StepResize (size : PtySize)
| StepOther (type_repr : pystr).

(** What a step of the driver meets while it runs: the history of the
    output buffer, the clock when it starts to wait and at each pass
    of the wait, the clock when the buffer is read for the error
    message, and the recorder's offset and the wall clock seen by
    [registry.mark]. *)
Record step_env := {
  history : Q -> OutputBuffer;
  wait_start : Q;
  evals : list Q;
  read_back : Q;
  mark_offset : Z;
  mark_time : Q
}.

(** The driver's side of the session: the bytes written to the PTY
    and the records of the keyframe registry. *)
Record session := {
  pty_input : pybytes;
  records : list Keyframe
}.

(** [KeyframeRegistry.mark] *)
Definition registry_mark (env : step_env) (label : pystr) (s : session)
  : session :=
  {| pty_input := pty_input s;
     records := records s ++ [ {| label := label;
                                  offset := mark_offset env;
                                  timestamp := mark_time env |} ] |}.

(** [payload.endswith(b"\n")] *)
Definition ends_with_newline (payload : pybytes) : bool :=
  match last payload with
  | Some b => Byte.eqb b x0a
  | None => false
  end.

(** [buffer.as_text()[-200:]] *)
Definition buffer_tail (b : OutputBuffer) : pystr :=
  slice_last 200 (as_text b).

(** [_run_input_step]: [None] while the step still waits, else the
    exception raised or the session afterwards. The sleep of [delay]
    only lets the clock advance before the step starts. *)
Definition _run_input_step (step : InputStep) (env : step_env)
    (s : session) : option (exn + session) :=
  match utf8.encode (payload step) with
  | None => Some (inl UnicodeEncodeError)
  | Some payload =>
    let payload :=
      if send_newline step && negb (ends_with_newline payload)
      then payload ++ [x0a] else payload in
    let s := {| pty_input := pty_input s ++ payload;
                records := records s |} in
    let s :=
      match mark step with
      | Some ((_ :: _) as label) => registry_mark env label s
      | _ => s
      end in
    match expect step with
    | None => Some (inr s)
    | Some expect =>
      let timeout :=
        match expect_timeout step with
        | Some t => t
        | None => 5%Q
        end in
      match wait_until (history env) (wait_start env) (evals env)
                       (matches expect) timeout with
      | None => None
      | Some true => Some (inr s)
      | Some false =>
        let snapshot := buffer_tail (history env (read_back env)) in
        let msg :=
          py "Condition not met for input step. "
          ++ py "Expectation: " ++ OutputCondition_repr expect
          ++ py ", buffer tail: " ++ snapshot in
        Some (inl (TimeoutError msg))
      end
    end
  end.

(** [_run_wait_step] *)
Definition _run_wait_step (step : WaitStep) (env : step_env)
  : option (exn + unit) :=
  match wait_until (history env) (wait_start env) (evals env)
                   (matches (condition step)) (timeout step) with
  | None => None
  | Some true => Some (inr tt)
  | Some false =>
    let snapshot := buffer_tail (history env (read_back env)) in
    let msg :=
      py "Wait step timed out. "
      ++ py "Expectation: " ++ OutputCondition_repr (condition step)
      ++ py ", buffer tail: " ++ snapshot in
    Some (inl (TimeoutError msg))
  end.

(** What [_execute_steps] raises: an exception of a step, the
    [TypeError] of the guard, or the [struct.error] of a resize. *)
Inductive step_error :=
| StepRaised (e : exn)
| StepTypeError (msg : pystr)
| StructError.

(** The session as [_execute_steps] changes it, with the window size
    of the PTY. *)
Record run_state := {
  run_session : session;
  run_winsize : PtySize
}.

(** [_execute_steps] inside the [with] block of [run], where the PTY
    is open; [envs] gives what each step meets, by its position. *)
Fixpoint _execute_steps (steps : list Step) (envs : nat -> step_env)
    (st : run_state) : option (step_error + run_state) :=
  match steps with
  | [] => Some (inr st)
  | step :: steps' =>
    let env := envs O in
    let envs' := fun i => envs (S i) in
    match step with
    | StepInput i =>
      match _run_input_step i env (run_session st) with
      | None => None
      | Some (inl e) => Some (inl (StepRaised e))
      | Some (inr s) =>
        _execute_steps steps' envs'
          {| run_session := s; run_winsize := run_winsize st |}
      end
    | StepWait w =>
      match _run_wait_step w env with
      | None => None
      | Some (inl e) => Some (inl (StepRaised e))
      | Some (inr _) => _execute_steps steps' envs' st
      end
    | StepMark label =>
      _execute_steps steps' envs'
        {| run_session := registry_mark env label (run_session st);
           run_winsize := run_winsize st |}
    | StepResize size =>
      match resize size with
      | None => Some (inl StructError)
      | Some winsize =>
        _execute_steps steps' envs'
          {| run_session := run_session st; run_winsize := winsize |}
      end
    | StepOther type_repr =>
      Some (inl (StepTypeError (py "Unsupported step type: " ++ type_repr)))
    end
  end.
End driver.

(** *** OutputPump *)

(** What a call of [runner.read] does: it raises [TimeoutError] or it
    returns a chunk, which may be empty. *)
Inductive read_result :=
| ReadTimeout
| ReadData (chunk : pybytes).

(** What one pass of a loop of the pump meets: whether the stop event
    is set when the pass begins, what the next [read] does, and what
    [is_running] answers if it is asked. *)
Record pump_tick := {
  stop_set : bool;
  read : read_result;
  running : bool
}.

(** The two sinks of the pump. *)
Record pump_state := {
  pump_recorder : AnsiStreamRecorder;
  pump_buffer : OutputBuffer
}.

Inductive pump_end :=
| PumpDone                 (* [run] returned *)
| PumpRaised (e : exn)     (* [run] raised *)
| PumpRunning.             (* still in a loop after the passes given *)

(** [self._recorder.append(chunk)] then [self._buffer.append(chunk)]:
    the states after each of the two calls. *)
Definition forward (st : pump_state) (chunk : pybytes)
  : exn + (pump_state * pump_state) :=
  match recording.append (pump_recorder st) chunk with
  | (inl e, _) => inl e
  | (inr _, recorder) =>
    inr ({| pump_recorder := recorder; pump_buffer := pump_buffer st |},
         {| pump_recorder := recorder;
            pump_buffer := buffer_append (pump_buffer st) chunk |})
  end.

(** The second loop of [run], which drains the output left after the
    process exit: the states after each [append], and how it ends. *)
Fixpoint drain (ticks : list pump_tick) (st : pump_state)
  : list pump_state * pump_end :=
  match ticks with
  | [] => ([], PumpRunning)
  | tick :: ticks' =>
    match read tick with
    | ReadTimeout => ([], PumpDone)
    | ReadData [] => ([], PumpDone)
    | ReadData chunk =>
      match forward st chunk with
      | inl e => ([], PumpRaised e)
      | inr (st1, st2) =>
        let '(trace, ending) := drain ticks' st2 in
        (st1 :: st2 :: trace, ending)
      end
    end
  end.

(** [OutputPump.run]: the first loop, then the drain. *)
Fixpoint OutputPump_run (ticks : list pump_tick) (st : pump_state)
  : list pump_state * pump_end :=
  match ticks with
  | [] => ([], PumpRunning)
  | tick :: ticks' =>
    if stop_set tick then drain ticks st
    else
      match read tick with
      | ReadTimeout =>
        if running tick then OutputPump_run ticks' st else drain ticks' st
      | ReadData [] =>
        if running tick then OutputPump_run ticks' st else drain ticks' st
      | ReadData chunk =>
        match forward st chunk with
        | inl e => ([], PumpRaised e)
        | inr (st1, st2) =>
          let '(trace, ending) := OutputPump_run ticks' st2 in
          (st1 :: st2 :: trace, ending)
        end
      end
  end.

End script.

(** ** dsl/model.py and dsl/planner.py *)

Module dsl.

Import pty_runner script.

Record Expectation := {
  exp_contains : option pystr;
  exp_regex : option pystr
}.

Record CommandStep := {
  cmd_kind : pystr;
  run : pystr;
  cmd_mark : option pystr;
  cmd_expect : option Expectation;
  cmd_timeout : option Q;
  cmd_delay : Q;
  cmd_send_newline : bool
}.

Record WaitStepDef := {
  wait_kind : pystr;
  wait_expect : Expectation;
  wait_timeout : Q
}.

Record SnapshotStep := { snap_kind : pystr; snap_label : pystr }.

Record ResizeStepDef := {
  resize_kind : pystr;
  resize_rows : Z;
  resize_cols : Z
}.

(** A [ScenarioStep]: one of the four subclasses, or an instance of
    another class, of which only its [kind] and the [repr] of its type
    are kept. *)
Inductive ScenarioStep :=
| Command (step : CommandStep)
| Wait (step : WaitStepDef)
| Snapshot (step : SnapshotStep)
| Resize (step : ResizeStepDef)
| OtherStep (kind type_repr : pystr).

(** What the planner raises: an exception of the condition's
    constructor, or [TypeError]. *)
Inductive plan_error :=
| Raised (e : exn)
| TypeError (msg : pystr).

Section planner.
Context {rt : PyRuntime}.

Definition _to_condition (expect : Expectation) : exn + OutputCondition :=
  OutputCondition_new (exp_contains expect) (exp_regex expect) None.

Definition _build_input_step (step : CommandStep) : exn + InputStep :=
  let build condition :=
    {| payload := run step;
       mark := cmd_mark step;
       expect := condition;
       expect_timeout := cmd_timeout step;
       delay := cmd_delay step;
       send_newline := cmd_send_newline step |} in
  match cmd_expect step with
  | Some expect =>
    match _to_condition expect with
    | inl e => inl e
    | inr condition => inr (build (Some condition))
    end
  | None => inr (build None)
  end.

Definition _build_wait_step (step : WaitStepDef) : exn + WaitStep :=
  match _to_condition (wait_expect step) with
  | inl e => inl e
  | inr condition =>
    inr {| condition := condition; timeout := wait_timeout step |}
  end.

(** The loop of [_plan_steps], with the steps planned so far; the
    function does not use its argument [meta]. *)
Fixpoint plan_from (planned : list Step) (steps : list ScenarioStep)
  : plan_error + list Step :=
  match steps with
  | [] => inr planned
  | step :: steps' =>
    match step with
    | Command c =>
      match _build_input_step c with
      | inl e => inl (Raised e)
      | inr i => plan_from (planned ++ [StepInput i]) steps'
      end
    | Wait w =>
      match _build_wait_step w with
      | inl e => inl (Raised e)
      | inr ws => plan_from (planned ++ [StepWait ws]) steps'
      end
    | Snapshot sn => plan_from (planned ++ [StepMark (snap_label sn)]) steps'
    | Resize r =>
      plan_from
        (planned ++ [StepResize {| rows := resize_rows r;
                                   cols := resize_cols r |}])
        steps'
    | OtherStep _ type_repr =>
      inl (TypeError (py "Unsupported scenario step: " ++ type_repr))
    end
  end.

Definition _plan_steps (steps : list ScenarioStep) : plan_error + list Step :=
  plan_from [] steps.
End planner.

End dsl.

(** ** What the specification says, in its own terms *)

Module spec.

Import recording replay script.

(** Correlation of a keyframe offset with a state of [states]: the
    first state at or past the offset, the last state when there is
    none. *)
Definition correlated (states : list ScreenState) (k : Z) (st : ScreenState)
  : Prop :=
  (exists before after,
      states = before ++ st :: after
      /\ k <= state_offset st
      /\ Forall (fun s => state_offset s < k) before)
  \/ (Forall (fun s => state_offset s < k) states /\ last states = Some st).

(** The sum of the lengths of the chunks. *)
Definition total_len (chunks : list pybytes) : Z :=
  foldr (fun c acc => len c + acc) 0 chunks.

(** A DEC private sequence: ESC, the bracket, the question mark, any
    number of parameter characters (digits and semicolons), [h] or [l]. *)
Definition dec_private_sequence (m : pystr) : Prop :=
  exists params c,
    m = [27; 91; 63]%N ++ params ++ [c]
    /\ Forall (fun d => dec_param d = true) params
    /\ dec_final c = true.

(** The end of an OSC sequence: BEL, or ST written ESC and backslash. *)
Definition terminator (t : pystr) : Prop :=
  t = [7%N] \/ t = [27; 92]%N.

(** ESC, the closing bracket, any characters, a terminator. *)
Definition osc_run (m : pystr) : Prop :=
  exists body t, m = [27; 93]%N ++ body ++ t /\ terminator t.

(** An OSC sequence, taken non-greedily: it ends at its first
    terminator, so that none of its proper prefixes is a run. *)
Definition osc_sequence (m : pystr) : Prop :=
  osc_run m
  /\ forall m' rest, osc_run m' -> m = m' ++ rest -> rest = [].

(** A text of the language [P] occurs in [text]. *)
Definition occurs (P : pystr -> Prop) (text : pystr) : Prop :=
  exists before m after, text = before ++ m ++ after /\ P m.

(** [scrubbed P text out ms]: reading [text] from left to right, [out]
    is what remains when each sequence of [P] met is deleted, and [ms]
    are the deleted sequences in order. A character is kept only where
    no sequence of [P] starts. *)
Inductive scrubbed (P : pystr -> Prop) : pystr -> pystr -> list pystr -> Prop :=
| scrubbed_end : scrubbed P [] [] []
| scrubbed_keep c text out ms :
    (forall m rest, c :: text = m ++ rest -> ~ P m) ->
    scrubbed P text out ms ->
    scrubbed P (c :: text) (c :: out) ms
| scrubbed_delete m text out ms :
    P m ->
    scrubbed P text out ms ->
    scrubbed P (m ++ text) out (m :: ms).

(** The warning for a deleted DEC private sequence. *)
Definition dec_warning (m : pystr) : ParseWarning :=
  {| kind := py "dec-private"; original := _repr_escape m;
     normalized := Some []; message := None |}.

(** The warning for a deleted OSC sequence. *)
Definition osc_warning (m : pystr) : ParseWarning :=
  {| kind := py "osc-suppressed"; original := _repr_escape m;
     normalized := Some []; message := None |}.

(** What a pattern finds in a text followed by [tail], from what it
    finds in the text alone, when it cannot see into [tail]. *)
Definition before_tail (tail : pystr) (found : option (pystr * pystr))
  : option (pystr * pystr) :=
  match found with
  | Some (m, rest) => Some (m, rest ++ tail)
  | None => None
  end.

(** The pattern matches at no place of [s]. *)
Fixpoint matches_nowhere (pattern : pystr -> option (pystr * pystr))
    (s : pystr) : bool :=
  match pattern s with
  | Some _ => false
  | None =>
    match s with
    | [] => true
    | _ :: s' => matches_nowhere pattern s'
    end
  end.

(** [a] is followed by [b] somewhere in [s]. *)
Fixpoint adjacent (a b : N) (s : pystr) : bool :=
  match s with
  | c :: ((d :: _) as s') => ((c =? a)%N && (d =? b)%N) || adjacent a b s'
  | _ => false
  end.

(** No terminator of an OSC sequence starts anywhere in [tail]. *)
Definition no_terminator (tail : pystr) : Prop :=
  forall before after, tail = before ++ after -> osc_terminator after = None.

(** The capabilities with nothing allowed. *)
Definition all_false : TerminalCapabilities :=
  {| supports_dec_private := false; allow_osc := false |}.

(** The entries the collector gets for the warnings of a chunk that
    starts at [offset]. *)
Definition entries_at (offset : Z) (warns : list ParseWarning)
  : list WarningEntry :=
  map (fun w => {| entry_offset := offset; warning := w |}) warns.

(** The reading of the normalizer by which every warning quotes a DEC
    private or OSC sequence that occurs in the decoded input. *)
Definition warnings_quote_input_sequences (chunk : pybytes) : Prop :=
  forall w, w ∈ snd (normalize all_false chunk) ->
    occurs (fun m => (dec_private_sequence m /\ w = dec_warning m)
                     \/ (osc_sequence m /\ w = osc_warning m))
           (utf8.decode_ignore chunk).

(** The reading of the normalizer by which an OSC introducer with no
    terminator behind it in the chunk stays in the text with all that
    follows it, and no OSC warning is given. *)
Definition unterminated_osc_untouched (chunk : pybytes) : Prop :=
  forall pre tl,
    utf8.decode_ignore chunk = pre ++ [27; 93]%N ++ tl ->
    ~ occurs terminator tl ->
    (exists out, fst (normalize all_false chunk) = out ++ [27; 93]%N ++ tl)
    /\ Forall (fun w => kind w <> py "osc-suppressed")
              (snd (normalize all_false chunk)).

(** The reading of [wait_until] by which it returns true exactly when
    the predicate holds of the buffer at some moment between the call
    and the deadline. *)
Definition true_iff_some_moment (history : Q -> OutputBuffer) (start : Q)
    (evals : list Q) (p : pystr -> bool) (timeout : Q) : Prop :=
  wait_until history start evals p timeout = Some true
  <-> exists moment : Q,
        (start <= moment)%Q /\ (moment <= start + timeout)%Q
        /\ p (_decode_locked (history moment)) = true.

(** A buffer that is empty until the clock reads 1, holds [a] from then
    on and [ab] from 2 on. *)
Definition a_then_ab (now : Q) : OutputBuffer :=
  if Qle_bool 2 now then {| _buffer := bytes_lit [97; 98]%N |}
  else if Qle_bool 1 now then {| _buffer := bytes_lit [97]%N |}
  else OutputBuffer_new.

(** The text is exactly [a]. *)
Definition is_a (text : pystr) : bool :=
  match text with
  | [c] => (c =? 97)%N
  | _ => false
  end.

(** The reading of the error message by which its buffer tail takes at
    most 200 bytes. *)
Definition tail_within_200_bytes (b : OutputBuffer) : Prop :=
  exists bs, utf8.encode (buffer_tail b) = Some bs /\ (length bs <= 200)%nat.

(** The chunks [parse] reads from a file: the successive non-empty
    results of [handle.read(chunk_size)]. *)
Fixpoint reads_from (fuel : nat) (chunk_size : Z) (rest : pybytes)
  : list pybytes :=
  match fuel with
  | O => []
  | S fuel' =>
    match handle_read chunk_size rest with
    | inr (b :: raw, rest') => (b :: raw) :: reads_from fuel' chunk_size rest'
    | _ => []
    end
  end.

Definition reads (chunk_size : Z) (data : pybytes) : list pybytes :=
  reads_from (S (length data)) chunk_size data.

(** A list of offsets that never decreases. *)
Definition ascending (l : list Z) : Prop :=
  forall i j x y, (i <= j)%nat -> l !! i = Some x -> l !! j = Some y -> x <= y.

(** A text of the language [P] among the bytes of a chunk: a run of
    the bytes of the chunk is the UTF-8 encoding of a text of [P]. *)
Definition occurs_in_bytes (P : pystr -> Prop) (chunk : pybytes) : Prop :=
  exists before text after values,
    utf8.encode_values text = Some values
    /\ P text
    /\ map Byte.to_N chunk = before ++ values ++ after.

(** The reading of the normalizer by which a chunk with no DEC private
    and no OSC sequence among its bytes comes back as its decoded
    text, without a warning, whatever the capabilities. *)
Definition plain_bytes_unchanged (chunk : pybytes) : Prop :=
  ~ occurs_in_bytes dec_private_sequence chunk ->
  ~ occurs_in_bytes osc_sequence chunk ->
  forall caps, normalize caps chunk = (utf8.decode_ignore chunk, []).

(** Replay of chunks that are each normalized on their own. The
    screen after the normalized texts of the chunks were fed to it,
    one after the other, the empty ones left out. *)
Fixpoint fed {vt : VtEngine} (caps : TerminalCapabilities)
    (screen : Screen) (chunks : list pybytes) : Screen :=
  match chunks with
  | [] => screen
  | chunk :: chunks' =>
    match fst (normalize caps chunk) with
    | [] => fed caps screen chunks'
    | (_ :: _) as text => fed caps (feed screen text) chunks'
    end
  end.

(** The snapshots taken on the way: one after each chunk whose
    normalized text is not empty, at the count of the bytes through
    that chunk, [start] bytes having come before. *)
Fixpoint replayed {vt : VtEngine} (caps : TerminalCapabilities)
    (screen : Screen) (start : Z) (chunks : list pybytes)
  : list ScreenState :=
  match chunks with
  | [] => []
  | chunk :: chunks' =>
    let stop := start + len chunk in
    match fst (normalize caps chunk) with
    | [] => replayed caps screen stop chunks'
    | (_ :: _) as text =>
      _snapshot (feed screen text) stop
      :: replayed caps (feed screen text) stop chunks'
    end
  end.

(** The warnings of the chunks, each chunk's at the offset of its
    start. *)
Fixpoint warned (caps : TerminalCapabilities) (start : Z)
    (chunks : list pybytes) : list WarningEntry :=
  match chunks with
  | [] => []
  | chunk :: chunks' =>
    entries_at start (snd (normalize caps chunk))
    ++ warned caps (start + len chunk) chunks'
  end.

End spec.

(** ** Further notions for the properties of the code *)

Module props.

Import pty_runner recording replay script dsl spec.

(** The bytes a recorder holds: those on disk and those still in the
    writer's buffer. *)
Definition contents (r : AnsiStreamRecorder) : pybytes :=
  on_disk (_file r) ++ pending (_file r).

(** The bytes of the [append] calls made before the first [close]. *)
Fixpoint accepted (cs : list recording_call) : pybytes :=
  match cs with
  | [] => []
  | CallAppend chunk :: cs' => chunk ++ accepted cs'
  | CallMark _ _ :: cs' => accepted cs'
  | CallClose :: _ => []
  end.

(** The labels of the [mark] calls, in call order. *)
Fixpoint marked (cs : list recording_call) : list pystr :=
  match cs with
  | [] => []
  | CallMark label _ :: cs' => label :: marked cs'
  | _ :: cs' => marked cs'
  end.

(** The bytes a pass of the pump reads. *)
Definition tick_data (tick : pump_tick) : pybytes :=
  match read tick with
  | ReadData chunk => chunk
  | ReadTimeout => []
  end.

(** The states a run of the pump goes through, from [st] on. *)
Definition last_state (st : pump_state) (trace : list pump_state)
  : pump_state :=
  match last trace with
  | Some st' => st'
  | None => st
  end.

(** The buffer holds exactly what the recorder holds, whose offset
    counts it, and the recorder is open. *)
Definition in_step (st : pump_state) : Prop :=
  _buffer (pump_buffer st) = contents (pump_recorder st)
  /\ _offset (pump_recorder st) = len (contents (pump_recorder st))
  /\ closed (_file (pump_recorder st)) = false.

(** The buffer holds nothing the recorder has not yet got. *)
Definition never_ahead (st : pump_state) : Prop :=
  _buffer (pump_buffer st) `prefix_of` contents (pump_recorder st)
  /\ len (_buffer (pump_buffer st)) <= _offset (pump_recorder st).

(** A pass whose [read] returns a chunk that is not empty. *)
Definition reads_data (tick : pump_tick) : Prop :=
  exists b chunk, read tick = ReadData (b :: chunk).

(** An expectation the constructor of [OutputCondition] accepts: it
    has a field, and its pattern, if any, compiles. *)
Definition well_formed {rt : PyRuntime} (e : Expectation) : Prop :=
  (exp_contains e <> None \/ exp_regex e <> None)
  /\ forall pattern, exp_regex e = Some pattern -> re_compiles pattern = true.

(** A scenario step the planner accepts. *)
Definition plannable {rt : PyRuntime} (step : ScenarioStep) : Prop :=
  match step with
  | Command c =>
    match cmd_expect c with
    | Some e => well_formed e
    | None => True
    end
  | Wait w => well_formed (wait_expect w)
  | Snapshot _ | Resize _ => True
  | OtherStep _ _ => False
  end.

(** The condition that stands for an expectation. *)
Definition condition_of (e : Expectation) : OutputCondition :=
  {| contains := exp_contains e; regex := exp_regex e; predicate := None |}.

(** The driver step a scenario step is planned as. *)
Definition plans_to (step : ScenarioStep) (planned : Step) : Prop :=
  match step, planned with
  | Command c, StepInput i =>
    payload i = run c /\ mark i = cmd_mark c
    /\ expect i = option_map condition_of (cmd_expect c)
    /\ expect_timeout i = cmd_timeout c /\ delay i = cmd_delay c
    /\ send_newline i = cmd_send_newline c
  | Wait w, StepWait ws =>
    condition ws = condition_of (wait_expect w) /\ timeout ws = wait_timeout w
  | Snapshot sn, StepMark label => label = snap_label sn
  | Resize r, StepResize size =>
    rows size = resize_rows r /\ cols size = resize_cols r
  | _, _ => False
  end.

(** An expectation whose fields are absent or empty. *)
Definition hollow (e : Expectation) : Prop :=
  (exp_contains e = None \/ exp_contains e = Some [])
  /\ (exp_regex e = None \/ exp_regex e = Some []).

(** The bytes an input step writes for [payload]. *)
Definition line (payload : pystr) (newline : bool) : pybytes :=
  match utf8.encode payload with
  | Some bytes =>
    if newline && negb (ends_with_newline bytes) then bytes ++ [x0a]
    else bytes
  | None => []
  end.

(** The bytes the steps planned for a scenario write to the PTY. *)
Definition scenario_input (steps : list ScenarioStep) : pybytes :=
  flat_map (fun step =>
              match step with
              | Command c => line (run c) (cmd_send_newline c)
              | _ => []
              end) steps.

(** The labels of the keyframes the steps planned for a scenario
    record: the marks of the commands that are not empty, and the
    labels of the snapshots. *)
Definition scenario_labels (steps : list ScenarioStep) : list pystr :=
  flat_map (fun step =>
              match step with
              | Command c =>
                match cmd_mark c with
                | Some ((_ :: _) as label) => [label]
                | _ => []
                end
              | Snapshot sn => [snap_label sn]
              | _ => []
              end) steps.

(** The window size after the resizes of a scenario. *)
Definition scenario_winsize (steps : list ScenarioStep) (size : PtySize)
  : PtySize :=
  foldl (fun size step =>
           match step with
           | Resize r => {| rows := resize_rows r; cols := resize_cols r |}
           | _ => size
           end) size steps.

(** A character that prints in ASCII. *)
Definition printable (c : N) : Prop := (32 <= c)%N /\ (c <= 126)%N.

(** A printable character other than the double quote and the
    backslash. *)
Definition plain (c : N) : Prop := printable c /\ c <> 34%N /\ c <> 92%N.

(** The cell [_snapshot] gives where the emulator has no character. *)
Definition blank_cell : CellStyle :=
  {| char := py " "; fg := Some (py "default"); bg := Some (py "default");
     bold := false; reverse := false |}.

End props.

(** * Properties *)

Import pty_runner recording replay script spec.

(** ** PTY session: exit status *)

(** C7. For every returncode [rc] of the child seen by
    [PtySessionRunner.wait], a negative [rc] gives a status with no
    returncode and signal [|rc|], a non-negative one gives returncode
    [rc] and no signal; whatever [wait] returns has at most one of the
    two fields; and [succeeded] holds exactly of the status with
    returncode 0 and no signal. *)
Theorem wait_translates_returncode (rc : Z) :
  (rc < 0 ->
     wait (Some (Returned (Some rc)))
     = inr {| returncode := None; signal := Some (Z.abs rc) |})
  /\ (0 <= rc ->
     wait (Some (Returned (Some rc)))
     = inr {| returncode := Some rc; signal := None |})
  /\ (forall process st,
        wait process = inr st -> returncode st = None \/ signal st = None)
  /\ (forall st,
        succeeded st = true <-> returncode st = Some 0 /\ signal st = None).
Proof.
  split; [|split; [|split]].
  - intros Hneg. unfold wait.
    destruct (Z.ltb_spec rc 0); [reflexivity | lia].
  - intros Hpos. unfold wait.
    destruct (Z.ltb_spec rc 0); [lia | reflexivity].
  - intros process st. unfold wait.
    destruct process as [[|[r|]]|]; try discriminate.
    + destruct (r <? 0); intros [= <-]; simpl; auto.
    + intros [= <-]; simpl; auto.
  - intros [[r|] [sg|]]; unfold succeeded; simpl.
    + rewrite andb_false_r. split; [discriminate | intros [_ [=]]].
    + rewrite andb_true_r, Z.eqb_eq. split.
      * intros ->. auto.
      * intros [[= ->] _]. reflexivity.
    + split; [discriminate | intros [[=] _]].
    + split; [discriminate | intros [[=] _]].
Qed.

(** A child killed by signal 9 and a child that exits with status 3. *)
Lemma wait_translates_returncode_witness :
  wait (Some (Returned (Some (-9))))
  = inr {| returncode := None; signal := Some 9 |}
  /\ wait (Some (Returned (Some 3)))
     = inr {| returncode := Some 3; signal := None |}.
Proof.
  split.
  - exact (proj1 (wait_translates_returncode (-9)) ltac:(lia)).
  - exact (proj1 (proj2 (wait_translates_returncode 3)) ltac:(lia)).
Defined.

(** ** Stream recorder *)

Lemma len_app {A} (l k : list A) : len (l ++ k) = len l + len k.
Proof. unfold len. rewrite length_app. lia. Qed.

Lemma len_nonneg {A} (l : list A) : 0 <= len l.
Proof. unfold len. lia. Qed.

Lemma total_len_concat (chunks : list pybytes) :
  total_len chunks = len (concat chunks).
Proof.
  induction chunks as [|c chunks IH]; simpl; [reflexivity|].
  rewrite len_app, <- IH. reflexivity.
Qed.

Lemma append_open (r : AnsiStreamRecorder) (chunk : pybytes) :
  closed (_file r) = false ->
  append r chunk
  = (inr (_offset r + len chunk),
     {| _file := {| on_disk := on_disk (_file r);
                    pending := pending (_file r) ++ chunk;
                    closed := false |};
        _offset := _offset r + len chunk |}).
Proof.
  intros Hopen. destruct r as [[d pd cl] o]. simpl in *. subst cl.
  destruct chunk as [|b chunk].
  - unfold append, len. simpl. rewrite Z.add_0_r, app_nil_r. reflexivity.
  - unfold append, file_write. simpl. reflexivity.
Qed.

Lemma append_all_open (chunks : list pybytes) (r : AnsiStreamRecorder) :
  closed (_file r) = false ->
  exists returned r',
    append_all r chunks = inr (returned, r')
    /\ _offset r' = _offset r + total_len chunks
    /\ _file r' = {| on_disk := on_disk (_file r);
                     pending := pending (_file r) ++ concat chunks;
                     closed := false |}
    /\ length returned = length chunks
    /\ forall i o, returned !! i = Some o ->
         o = _offset r + total_len (take (S i) chunks).
Proof.
  revert r. induction chunks as [|c chunks IH]; intros r Hopen.
  - exists [], r. simpl. rewrite Z.add_0_r, app_nil_r.
    destruct r as [[d pd cl] o]. simpl in *. subst cl.
    repeat split; auto. intros i o' H. destruct i; discriminate.
  - simpl. rewrite (append_open r c Hopen).
    edestruct (IH {| _file := {| on_disk := on_disk (_file r);
                                pending := pending (_file r) ++ c;
                                closed := false |};
                    _offset := _offset r + len c |})
      as (returned & r' & Hrun & Hoff & Hfile & Hlen & Hret);
      [reflexivity|].
    rewrite Hrun. eexists _, r'. split; [reflexivity|].
    simpl in *. repeat split.
    + lia.
    + rewrite Hfile, <- app_assoc. reflexivity.
    + simpl. lia.
    + intros [|i] o H; simpl in H.
      * injection H as <-. simpl. lia.
      * apply Hret in H. simpl in H. simpl. lia.
Qed.

(** C3. For every sequence of [append] calls on a fresh recorder, every
    call returns, the final offset is the sum of the lengths of the
    chunks, the file at the recorder's path holds the concatenation of
    the chunks in call order once the recorder is closed, and the
    [i]-th call returns the offset after it; appending an empty chunk
    changes nothing and returns the current offset. *)
Theorem recorder_appends (chunks : list pybytes) :
  (exists returned r,
      append_all recording.new chunks = inr (returned, r)
      /\ _offset r = total_len chunks
      /\ persisted r = concat chunks
      /\ length returned = length chunks
      /\ forall i o, returned !! i = Some o ->
           o = total_len (take (S i) chunks))
  /\ (forall r, append r [] = (inr (_offset r), r)).
Proof.
  split; [|reflexivity].
  destruct (append_all_open chunks recording.new eq_refl)
    as (returned & r & Hrun & Hoff & Hfile & Hlen & Hret).
  exists returned, r. simpl in *. repeat split; auto.
  unfold persisted, close. rewrite Hfile. simpl. apply app_nil_r.
Qed.

(** The first scenario of the specification: [hello], then [ world]. *)
Example recorder_tracks_offsets :
  let hello := bytes_lit [104; 101; 108; 108; 111]%N in
  let world := bytes_lit [32; 119; 111; 114; 108; 100]%N in
  exists r,
    append_all recording.new [hello; world] = inr ([5; 11], r)
    /\ persisted r = hello ++ world.
Proof. eexists. split; reflexivity. Qed.

(** ** Keyframe correlation *)

Lemma find_correlated (states : list ScreenState) (k : Z) :
  match List.find (fun state => k <=? state_offset state) states with
  | Some st =>
    exists before after,
      states = before ++ st :: after
      /\ k <= state_offset st
      /\ Forall (fun s => state_offset s < k) before
  | None => Forall (fun s => state_offset s < k) states
  end.
Proof.
  induction states as [|s states IH]; simpl; [constructor|].
  destruct (Z.leb_spec k (state_offset s)) as [Hle|Hlt].
  - exists [], states. repeat split; auto.
  - destruct (List.find _ states) as [st|].
    + destruct IH as (before & after & -> & Hk & Hbefore).
      exists (s :: before), after. repeat split; auto.
    + constructor; auto.
Qed.

Lemma _locate_state_correlated (states : list ScreenState) (k : Z) :
  states <> [] ->
  exists st, _locate_state states k = Some st /\ correlated states k st.
Proof.
  intros Hne. unfold _locate_state.
  pose proof (find_correlated states k) as H.
  destruct (List.find _ states) as [st|].
  - exists st. split; [reflexivity|]. left. exact H.
  - destruct (last states) as [st|] eqn:Hlast.
    + exists st. split; [reflexivity|]. right. auto.
    + apply last_None in Hlast. contradiction.
Qed.

Section correlate.
Variable states : list ScreenState.

Let record (mapping : gmap pystr ScreenState) (frame : Keyframe) :=
  match _locate_state states (offset frame) with
  | Some candidate => <[label frame := candidate]> mapping
  | None => mapping
  end.

Lemma record_other_labels (frames : list Keyframe) (l : pystr)
    (mapping : gmap pystr ScreenState) :
  Forall (fun k => label k <> l) frames ->
  foldl record mapping frames !! l = mapping !! l.
Proof using Type.
  revert mapping. induction frames as [|f frames IH]; intros mapping Hall.
  - reflexivity.
  - inversion Hall as [|? ? Hf Hrest]; subst. simpl. rewrite IH by assumption.
    unfold record. destruct (_locate_state states (offset f)); [|reflexivity].
    apply lookup_insert_ne. assumption.
Qed.

Lemma record_last_label (before after : list Keyframe) (K : Keyframe)
    (st : ScreenState) (mapping : gmap pystr ScreenState) :
  _locate_state states (offset K) = Some st ->
  Forall (fun k => label k <> label K) after ->
  foldl record mapping (before ++ K :: after) !! label K = Some st.
Proof using Type.
  intros Hloc Hafter. rewrite foldl_app. simpl.
  rewrite record_other_labels by assumption.
  unfold record at 1. rewrite Hloc. apply lookup_insert_eq.
Qed.

Lemma extract_keyframes_fold (s0 : ScreenState) (rest : list ScreenState)
    (frames : list Keyframe) :
  states = s0 :: rest ->
  extract_keyframes states frames = foldl record ∅ frames.
Proof using Type.
  intros ->. reflexivity.
Qed.
End correlate.

(** C1. When [states] is empty the mapping returned by
    [extract_keyframes] is empty. When it is not, a label borne by no
    keyframe is not mapped, and the label of a keyframe [K] that no
    later keyframe of the input bears again (so that among duplicates
    the last one counts) is mapped to the first state whose offset is
    at least [K]'s, or to the last state when no state reaches it. *)
Theorem extract_keyframes_correlates
    (states : list ScreenState) (keyframes : list Keyframe) :
  (states = [] -> extract_keyframes states keyframes = ∅)
  /\ (states <> [] ->
      (forall l, Forall (fun k => label k <> l) keyframes ->
                 extract_keyframes states keyframes !! l = None)
      /\ forall before K after,
          keyframes = before ++ K :: after ->
          Forall (fun k => label k <> label K) after ->
          exists st,
            extract_keyframes states keyframes !! label K = Some st
            /\ correlated states (offset K) st).
Proof.
  split.
  - intros ->. reflexivity.
  - intros Hne. destruct states as [|s0 rest] eqn:Hstates; [contradiction|].
    rewrite <- Hstates in *. split.
    + intros l Hall.
      rewrite (extract_keyframes_fold states s0 rest keyframes Hstates).
      rewrite record_other_labels by assumption. apply lookup_empty.
    + intros before K after -> Hafter.
      destruct (_locate_state_correlated states (offset K) Hne)
        as (st & Hloc & Hcor).
      exists st. split; [|exact Hcor].
      rewrite (extract_keyframes_fold states s0 rest _ Hstates).
      apply record_last_label; assumption.
Qed.

(** Keyframes over states at offsets 4, 9 and 15: of the two keyframes
    labelled [a] the later one counts, and an offset past every state
    falls back on the last state. *)
Example extract_keyframes_last_wins :
  let state o := {| state_offset := o; cursor_row := 0; cursor_col := 0;
                    cells := [] |} in
  let frame l o := {| label := l; offset := o; timestamp := 0 |} in
  let mapping :=
    extract_keyframes [state 4; state 9; state 15]
      [frame (py "a") 2; frame (py "b") 9; frame (py "a") 5;
       frame (py "c") 20] in
  mapping !! py "a" = Some (state 9)
  /\ mapping !! py "b" = Some (state 9)
  /\ mapping !! py "c" = Some (state 15)
  /\ mapping !! py "d" = None.
Proof. vm_compute. repeat split; reflexivity. Qed.

(** ** Replay parser: offsets of the screen states *)

Lemma total_len_nonneg (chunks : list pybytes) : 0 <= total_len chunks.
Proof. rewrite total_len_concat. apply len_nonneg. Qed.

Lemma ascending_nil : ascending [].
Proof. intros i j x y _ H. destruct i; discriminate. Qed.

Lemma ascending_cons (x : Z) (l : list Z) :
  Forall (fun y => x <= y) l -> ascending l -> ascending (x :: l).
Proof.
  intros Hall Hl [|i] [|j] a b Hij Ha Hb; simpl in *.
  - injection Ha as <-. injection Hb as <-. lia.
  - injection Ha as <-. rewrite Forall_forall in Hall.
    apply Hall. eapply list_elem_of_lookup_2. exact Hb.
  - lia.
  - eapply (Hl i j); eauto. lia.
Qed.

Lemma handle_read_split (chunk_size : Z) (h : pybytes) :
  -1 <= chunk_size ->
  exists raw rest, handle_read chunk_size h = inr (raw, rest) /\ h = raw ++ rest.
Proof.
  intros Hn. unfold handle_read.
  destruct (Z.ltb_spec chunk_size (-1)); [lia|].
  destruct (Z.eqb_spec chunk_size (-1)).
  - exists h, []. split; [reflexivity|]. symmetry. apply app_nil_r.
  - eexists _, _. split; [reflexivity|]. symmetry. apply take_drop.
Qed.

Section parse_facts.
Context {vt : VtEngine}.
Variable caps : TerminalCapabilities.

Lemma parse_chunk_fields (st : parse_state) (raw rest : pybytes) :
  let st1 := parse_chunk caps st raw rest in
  ps_handle st1 = rest
  /\ ps_consumed st1 = ps_consumed st + len raw
  /\ ps_states st1
     = ps_states st
       ++ match fst (normalize caps raw) with
          | [] => []
          | _ :: _ =>
            [_snapshot (feed (ps_screen st) (fst (normalize caps raw)))
                       (ps_consumed st + len raw)]
          end.
Proof using Type.
  unfold parse_chunk. destruct (normalize caps raw) as [[|c text] warns]; simpl.
  - rewrite app_nil_r. auto.
  - auto.
Qed.

(** The loop of [parse] reaches its [break] when it is given more
    iterations than the file has bytes left, and each state it adds
    bears the count of the bytes read through the chunk it comes from. *)
Lemma parse_loop_run (chunk_size : Z) :
  -1 <= chunk_size ->
  forall fuel st,
    (length (ps_handle st) < fuel)%nat ->
    let chunks := reads_from fuel chunk_size (ps_handle st) in
    exists st' new,
      parse_loop fuel caps chunk_size st = Some (inr st')
      /\ ps_consumed st' = ps_consumed st + total_len chunks
      /\ ps_states st' = ps_states st ++ new
      /\ (forall i s, new !! i = Some s ->
            exists k chunk,
              chunks !! k = Some chunk
              /\ fst (normalize caps chunk) <> []
              /\ state_offset s
                 = ps_consumed st + total_len (take (S k) chunks))
      /\ ascending (map state_offset new).
Proof using Type.
  intros Hn. induction fuel as [|fuel IH]; intros st Hfuel; [lia|].
  destruct (handle_read_split chunk_size (ps_handle st) Hn)
    as (raw & rest & Hread & Hsplit).
  simpl. rewrite Hread. destruct raw as [|b raw].
  - exists st, []. simpl. rewrite Z.add_0_r, app_nil_r.
    repeat split; auto using ascending_nil.
    intros i s H. destruct i; discriminate.
  - set (st1 := parse_chunk caps st (b :: raw) rest).
    destruct (parse_chunk_fields st (b :: raw) rest)
      as (Hhandle & Hconsumed & Hstates). fold st1 in Hhandle, Hconsumed, Hstates.
    assert (Hlt : (length (ps_handle st1) < fuel)%nat).
    { rewrite Hhandle. rewrite Hsplit in Hfuel. rewrite length_app in Hfuel.
      simpl in Hfuel. lia. }
    destruct (IH st1 Hlt) as (st' & new & Hrun & Hcons' & Hstates' & Hnew & Hasc).
    rewrite Hhandle in Hcons', Hnew.
    set (chunks := reads_from fuel chunk_size rest) in *.
    destruct (fst (normalize caps (b :: raw))) as [|c text] eqn:Hnorm.
    + exists st', new. rewrite app_nil_r in Hstates.
      split; [exact Hrun|]. split; [simpl; lia|].
      split; [rewrite Hstates', Hstates; reflexivity|].
      split; [|exact Hasc].
      intros i s Hi. destruct (Hnew i s Hi) as (k & chunk & Hk & Hne & Hoff).
      exists (S k), chunk. split; [exact Hk|]. split; [exact Hne|].
      rewrite Hoff, Hconsumed. simpl. lia.
    + exists st', (_snapshot (feed (ps_screen st) (c :: text))
                             (ps_consumed st + len (b :: raw)) :: new).
      split; [exact Hrun|]. split; [simpl; lia|].
      split; [rewrite Hstates', Hstates, <- app_assoc; reflexivity|].
      split.
      * intros [|i] s Hi; simpl in Hi.
        -- injection Hi as <-. exists O, (b :: raw).
           split; [reflexivity|]. split; [rewrite Hnorm; discriminate|].
           simpl. lia.
        -- destruct (Hnew i s Hi) as (k & chunk & Hk & Hne & Hoff).
           exists (S k), chunk. split; [exact Hk|]. split; [exact Hne|].
           rewrite Hoff, Hconsumed. simpl. lia.
      * simpl. apply ascending_cons; [|exact Hasc].
        rewrite Forall_forall. intros y Hy.
        apply list_elem_of_fmap in Hy. destruct Hy as (s & -> & Hs).
        apply list_elem_of_lookup in Hs. destruct Hs as (i & Hi).
        destruct (Hnew i s Hi) as (k & chunk & _ & _ & Hoff).
        rewrite Hoff, Hconsumed.
        pose proof (total_len_nonneg (take (S k) chunks)). lia.
Qed.
End parse_facts.

Lemma reads_from_concat (chunk_size : Z) :
  -1 <= chunk_size -> chunk_size <> 0 ->
  forall fuel h, (length h < fuel)%nat ->
    concat (reads_from fuel chunk_size h) = h.
Proof.
  intros Hn Hnz. induction fuel as [|fuel IH]; intros h Hfuel; [lia|].
  simpl. unfold handle_read.
  destruct (Z.ltb_spec chunk_size (-1)); [lia|].
  destruct (Z.eqb_spec chunk_size (-1)).
  - destruct h as [|b h]; [reflexivity|]. simpl.
    destruct fuel; [simpl in Hfuel; lia|]. simpl.
    unfold handle_read. subst chunk_size. simpl. rewrite app_nil_r. reflexivity.
  - destruct h as [|b h].
    + rewrite take_nil. reflexivity.
    + destruct (Z.to_nat chunk_size) as [|size] eqn:Hsize; [lia|].
      simpl. rewrite IH.
      * rewrite take_drop. reflexivity.
      * rewrite length_drop. simpl in Hfuel. lia.
Qed.



(** ** Substitution *)

Section sub_facts.
Context {St : Type}.
Variable pattern : pystr -> option (pystr * pystr).
Variable repl : pystr -> St -> pystr * St.

(** A match is a non-empty prefix of the text. *)
Hypothesis consuming :
  forall s m rest, pattern s = Some (m, rest) -> s = m ++ rest /\ m <> [].

Lemma match_shortens s m rest :
  pattern s = Some (m, rest) -> (length rest < length s)%nat.
Proof using consuming.
  intros H. destruct (consuming _ _ _ H) as [-> Hne].
  rewrite length_app. destruct m; [contradiction|]. simpl. lia.
Qed.

Lemma sub_from_fuel (fuel1 : nat) :
  forall fuel2 s st,
    (length s <= fuel1)%nat -> (length s <= fuel2)%nat ->
    sub_from pattern repl fuel1 s st = sub_from pattern repl fuel2 s st.
Proof using consuming.
  induction fuel1 as [|fuel1 IH]; intros fuel2 s st H1 H2.
  - destruct s; [|simpl in H1; lia]. destruct fuel2; reflexivity.
  - destruct fuel2 as [|fuel2].
    + destruct s; [reflexivity | simpl in H2; lia].
    + destruct s as [|c s]; [reflexivity|]. simpl.
      destruct (pattern (c :: s)) as [[m rest]|] eqn:Hm.
      * pose proof (match_shortens _ _ _ Hm) as Hlt. simpl in *.
        destruct (repl m st) as [r st1].
        rewrite (IH fuel2 rest st1) by lia. reflexivity.
      * simpl in *. rewrite (IH fuel2 s st) by lia. reflexivity.
Qed.

Lemma sub_nil st : sub pattern repl [] st = ([], st).
Proof using Type. reflexivity. Qed.

Lemma sub_match s m rest st :
  pattern s = Some (m, rest) ->
  sub pattern repl s st
  = let '(r, st1) := repl m st in
    let '(out, st2) := sub pattern repl rest st1 in
    (r ++ out, st2).
Proof using consuming.
  intros Hm. pose proof (match_shortens _ _ _ Hm) as Hlt.
  unfold sub. destruct s as [|c s]; [simpl in Hlt; lia|].
  simpl. rewrite Hm. destruct (repl m st) as [r st1].
  rewrite (sub_from_fuel (length s) (length rest) rest st1);
    [reflexivity | simpl in Hlt; lia | lia].
Qed.

Lemma sub_skip c s st :
  pattern (c :: s) = None ->
  sub pattern repl (c :: s) st
  = let '(out, st1) := sub pattern repl s st in (c :: out, st1).
Proof using Type.
  intros Hm. unfold sub. simpl. rewrite Hm. reflexivity.
Qed.

(** Reasoning along the matches of a substitution. *)
Lemma sub_rel (R : pystr -> St -> pystr -> St -> Prop) :
  (forall st, R [] st [] st) ->
  (forall s m rest st r st1 out st2,
      pattern s = Some (m, rest) -> repl m st = (r, st1) ->
      R rest st1 out st2 -> R s st (r ++ out) st2) ->
  (forall c s st out st1,
      pattern (c :: s) = None ->
      R s st out st1 -> R (c :: s) st (c :: out) st1) ->
  forall s st, exists out st',
    sub pattern repl s st = (out, st') /\ R s st out st'.
Proof using consuming.
  intros Hnil Hmatch Hskip s.
  remember (length s) as n eqn:Hn.
  assert (Hle : (length s <= n)%nat) by lia. clear Hn.
  revert s Hle. induction n as [|n IH]; intros s Hle st.
  - destruct s; [|simpl in Hle; lia]. eexists _, _. split; [reflexivity|auto].
  - destruct s as [|c s]; [eexists _, _; split; [reflexivity|auto]|].
    destruct (pattern (c :: s)) as [[m rest]|] eqn:Hm.
    + pose proof (match_shortens _ _ _ Hm) as Hlt. simpl in *.
      rewrite (sub_match _ _ _ _ Hm).
      destruct (repl m st) as [r st1] eqn:Hr.
      destruct (IH rest ltac:(lia) st1) as (out & st2 & Hsub & HR).
      rewrite Hsub. eexists _, _. split; [reflexivity|]. eauto.
    + rewrite (sub_skip _ _ _ Hm). simpl in Hle.
      destruct (IH s ltac:(lia) st) as (out & st1 & Hsub & HR).
      rewrite Hsub. eexists _, _. split; [reflexivity|]. eauto.
Qed.

(** Where the pattern matches at no place of the text, the text and
    the state are returned as they are. *)
Lemma sub_no_match s st :
  (forall before after, s = before ++ after -> pattern after = None) ->
  sub pattern repl s st = (s, st).
Proof using consuming.
  intros Hnone.
  destruct (sub_rel (fun s st out st' =>
              (forall before after, s = before ++ after -> pattern after = None) ->
              out = s /\ st' = st)) with (s := s) (st := st)
    as (out & st' & Hsub & HR).
  - auto.
  - intros s0 m rest st0 r st1 out st2 Hm _ _ Hno.
    rewrite (Hno [] s0 eq_refl) in Hm. discriminate.
  - intros c s0 st0 out st1 _ IH Hno.
    destruct IH as [-> ->]; [|auto].
    intros before after ->. apply (Hno (c :: before) after). reflexivity.
  - rewrite Hsub. destruct (HR Hnone) as [-> ->]. reflexivity.
Qed.

(** A replacement that gives back the match changes nothing. *)
Lemma sub_identity s st :
  (forall m st, repl m st = (m, st)) ->
  sub pattern repl s st = (s, st).
Proof using consuming.
  intros Hid.
  destruct (sub_rel (fun s st out st' => out = s /\ st' = st))
    with (s := s) (st := st) as (out & st' & Hsub & -> & ->); auto.
  - intros s0 m rest st0 r st1 out st2 Hm Hr [-> ->].
    rewrite Hid in Hr. injection Hr as <- <-.
    destruct (consuming _ _ _ Hm) as [-> _]. auto.
  - intros c s0 st0 out st1 _ [-> ->]. auto.
Qed.

(** A tail the pattern cannot reach into, and in which it matches
    nowhere, comes out as it is behind the rest. *)
Lemma sub_blind_tail (tail : pystr) :
  (forall st, sub pattern repl tail st = (tail, st)) ->
  (forall x, x <> [] ->
     pattern (x ++ tail)
     = match pattern x with
       | Some (m, rest) => Some (m, rest ++ tail)
       | None => None
       end) ->
  forall a st,
    sub pattern repl (a ++ tail) st
    = let '(out, st') := sub pattern repl a st in (out ++ tail, st').
Proof using consuming.
  intros Htail Hblind a st.
  destruct (sub_rel (fun a st out st' =>
              sub pattern repl (a ++ tail) st = (out ++ tail, st')))
    with (s := a) (st := st) as (out & st' & Hsub & HR).
  - intros st0. apply Htail.
  - intros s m rest st0 r st1 out st2 Hm Hr IH. cbv beta in *.
    assert (Hne : s <> []).
    { destruct (consuming _ _ _ Hm) as [-> Hm']. destruct m; [contradiction|discriminate]. }
    pose proof (Hblind s Hne) as Hb. rewrite Hm in Hb.
    rewrite (sub_match _ _ _ st0 Hb). rewrite Hr, IH, app_assoc. reflexivity.
  - intros c s st0 out st1 Hm IH. cbv beta in *.
    pose proof (Hblind (c :: s) ltac:(discriminate)) as Hb. rewrite Hm in Hb.
    change ((c :: s) ++ tail) with (c :: (s ++ tail)) in *.
    rewrite (sub_skip _ _ st0 Hb). rewrite IH. reflexivity.
  - rewrite Hsub. exact HR.
Qed.
End sub_facts.

(** ** The two patterns and the sequences they stand for *)

Local Arguments dec_param : simpl never.
Local Arguments dec_final : simpl never.
Local Arguments N.eqb : simpl never.

Lemma dec_params_final_sound s m rest :
  dec_params_final s = Some (m, rest) ->
  s = m ++ rest
  /\ exists params c,
       m = params ++ [c]
       /\ Forall (fun d => dec_param d = true) params
       /\ dec_final c = true.
Proof.
  revert m rest. induction s as [|c s IH]; intros m rest; simpl; [discriminate|].
  assert (Hfinal : (if dec_final c then Some ([c], s) else None) = Some (m, rest) ->
                   (c :: s = m ++ rest
                    /\ exists params c0,
                         m = params ++ [c0]
                         /\ Forall (fun d => dec_param d = true) params
                         /\ dec_final c0 = true)).
  { destruct (dec_final c) eqn:Hc; [|discriminate]. intros [= <- <-].
    split; [reflexivity|]. exists [], c. auto. }
  destruct (dec_param c) eqn:Hp; [|exact Hfinal].
  destruct (dec_params_final s) as [[m' rest']|]; [|exact Hfinal].
  intros [= <- <-]. destruct (IH m' rest' eq_refl) as (-> & params & c0 & -> & Hall & Hc0).
  split; [reflexivity|]. exists (c :: params), c0. auto.
Qed.

Lemma dec_params_final_complete params c rest :
  Forall (fun d => dec_param d = true) params ->
  dec_final c = true ->
  dec_params_final (params ++ c :: rest) <> None.
Proof.
  intros Hall Hc. induction Hall as [|p params Hp _ IH]; simpl.
  - rewrite Hc. destruct (dec_param c); [|discriminate].
    destruct (dec_params_final rest) as [[? ?]|]; discriminate.
  - rewrite Hp. destruct (dec_params_final (params ++ c :: rest)) as [[? ?]|];
      [discriminate | contradiction].
Qed.

Lemma dec_params_final_blind tl x :
  dec_params_final (x ++ 27%N :: tl) = before_tail (27%N :: tl) (dec_params_final x).
Proof.
  induction x as [|c x IH]; [reflexivity|].
  simpl. rewrite IH.
  destruct (dec_param c), (dec_params_final x) as [[m r]|], (dec_final c);
    reflexivity.
Qed.

Lemma dec_re_sound s m rest :
  _DEC_PRIVATE_RE s = Some (m, rest) ->
  s = m ++ rest /\ dec_private_sequence m.
Proof.
  destruct s as [|c0 [|c1 [|c2 s]]]; simpl; try discriminate.
  destruct (N.eqb_spec c0 27); [|discriminate].
  destruct (N.eqb_spec c1 91); [|discriminate].
  destruct (N.eqb_spec c2 63); [|discriminate]. simpl. subst.
  destruct (dec_params_final s) as [[m' rest']|] eqn:Hm; [|discriminate].
  intros [= <- <-].
  destruct (dec_params_final_sound _ _ _ Hm) as (-> & params & c & -> & Hall & Hc).
  split; [reflexivity|]. exists params, c. auto.
Qed.

Lemma dec_re_consuming s m rest :
  _DEC_PRIVATE_RE s = Some (m, rest) -> s = m ++ rest /\ m <> [].
Proof.
  intros H. destruct (dec_re_sound _ _ _ H) as (-> & params & c & -> & _).
  split; [reflexivity | discriminate].
Qed.

Lemma dec_re_complete s :
  _DEC_PRIVATE_RE s = None ->
  forall m rest, s = m ++ rest -> ~ dec_private_sequence m.
Proof.
  intros Hnone m rest -> (params & c & -> & Hall & Hc).
  simpl in Hnone. rewrite <- !app_assoc in Hnone. simpl in Hnone.
  destruct (dec_params_final (params ++ c :: rest)) as [[? ?]|] eqn:Hm;
    [discriminate|].
  exact (dec_params_final_complete params c rest Hall Hc Hm).
Qed.

Lemma dec_re_blind tl x :
  x <> [] ->
  _DEC_PRIVATE_RE (x ++ 27%N :: tl) = before_tail (27%N :: tl) (_DEC_PRIVATE_RE x).
Proof.
  intros Hx. destruct x as [|c0 [|c1 [|c2 x]]]; [contradiction| | |].
  - simpl. destruct tl; [reflexivity|].
    destruct (c0 =? 27)%N; reflexivity.
  - simpl. destruct (c0 =? 27)%N, (c1 =? 91)%N; reflexivity.
  - simpl. rewrite dec_params_final_blind.
    destruct ((c0 =? 27)%N && (c1 =? 91)%N && (c2 =? 63)%N); [|reflexivity].
    destruct (dec_params_final x) as [[m r]|]; reflexivity.
Qed.

Lemma osc_terminator_sound s t rest :
  osc_terminator s = Some (t, rest) -> s = t ++ rest /\ terminator t.
Proof.
  destruct s as [|c s]; simpl; [discriminate|].
  destruct (N.eqb_spec c 7).
  - intros [= <- <-]. subst. split; [reflexivity|]. left. reflexivity.
  - destruct s as [|d s]; [discriminate|].
    destruct (N.eqb_spec c 27); [|discriminate].
    destruct (N.eqb_spec d 92); [|discriminate]. simpl.
    intros [= <- <-]. subst. split; [reflexivity|]. right. reflexivity.
Qed.

Lemma osc_terminator_complete s :
  osc_terminator s = None ->
  forall t rest, terminator t -> s <> t ++ rest.
Proof.
  intros Hnone t rest [-> | ->] ->; simpl in Hnone; discriminate.
Qed.

Lemma osc_terminator_short s t rest :
  osc_terminator s = Some (t, rest) ->
  forall b' t' r', terminator t' -> s = b' ++ t' ++ r' ->
    (length t <= length (b' ++ t'))%nat.
Proof.
  intros H b' t' r' Ht' Hs.
  destruct (osc_terminator_sound _ _ _ H) as [-> Ht].
  rewrite length_app.
  destruct Ht as [-> | ->], Ht' as [-> | ->], b' as [|b0 b']; simpl in *;
    try lia; discriminate.
Qed.

Lemma osc_body_terminator_unfold s :
  osc_body_terminator s
  = match osc_terminator s with
    | Some r => Some r
    | None =>
      match s with
      | [] => None
      | c :: s' =>
        match osc_body_terminator s' with
        | Some (m, rest) => Some (c :: m, rest)
        | None => None
        end
      end
    end.
Proof. destruct s; reflexivity. Qed.

Lemma osc_body_terminator_sound s m rest :
  osc_body_terminator s = Some (m, rest) ->
  s = m ++ rest
  /\ (exists body t, m = body ++ t /\ terminator t)
  /\ (forall b' t' r', terminator t' -> s = b' ++ t' ++ r' ->
        (length m <= length (b' ++ t'))%nat).
Proof.
  revert m rest. induction s as [|c s IH]; intros m rest;
    rewrite osc_body_terminator_unfold.
  - simpl. discriminate.
  - destruct (osc_terminator (c :: s)) as [[t r]|] eqn:Ht.
    + intros [= <- <-]. destruct (osc_terminator_sound _ _ _ Ht) as [Hs Hterm].
      split; [exact Hs|]. split; [exists [], t; auto|].
      exact (osc_terminator_short _ _ _ Ht).
    + destruct (osc_body_terminator s) as [[m' rest']|]; [|discriminate].
      intros [= <- <-].
      destruct (IH m' rest' eq_refl) as (-> & (body & t & -> & Hterm) & Hshort).
      split; [reflexivity|]. split; [exists (c :: body), t; auto|].
      intros b' t' r' Ht' Hs. destruct b' as [|b0 b'].
      * exfalso. exact (osc_terminator_complete _ Ht t' r' Ht' Hs).
      * injection Hs as <- Hs. simpl. apply le_n_S. eapply Hshort; eauto.
Qed.

Lemma osc_body_terminator_complete body t rest :
  terminator t -> osc_body_terminator (body ++ t ++ rest) <> None.
Proof.
  intros Ht. induction body as [|c body IH];
    rewrite osc_body_terminator_unfold.
  - destruct Ht as [-> | ->]; simpl; discriminate.
  - simpl app. destruct (osc_terminator (c :: body ++ t ++ rest)); [discriminate|].
    destruct (osc_body_terminator (body ++ t ++ rest)) as [[? ?]|];
      [discriminate | contradiction].
Qed.

Lemma osc_re_run s m rest :
  _OSC_RE s = Some (m, rest) ->
  exists s' m',
    s = 27%N :: 93%N :: s' /\ m = 27%N :: 93%N :: m'
    /\ osc_body_terminator s' = Some (m', rest).
Proof.
  destruct s as [|c0 [|c1 s]]; simpl; try discriminate.
  destruct (N.eqb_spec c0 27); [|discriminate].
  destruct (N.eqb_spec c1 93); [|discriminate]. simpl. subst.
  destruct (osc_body_terminator s) as [[m' rest']|] eqn:Hm; [|discriminate].
  intros [= <- <-]. exists s, m'. auto.
Qed.

Lemma osc_re_sound s m rest :
  _OSC_RE s = Some (m, rest) -> s = m ++ rest /\ osc_sequence m.
Proof.
  intros H. destruct (osc_re_run _ _ _ H) as (s' & m' & -> & -> & Hm).
  destruct (osc_body_terminator_sound _ _ _ Hm)
    as (-> & (body & t & -> & Hterm) & Hshort).
  split; [reflexivity|]. split; [exists body, t; auto|].
  intros m1 rest1 (body1 & t1 & -> & Hterm1) Heq.
  simpl in Heq. injection Heq as Heq.
  assert (Hlen : (length (body ++ t) <= length (body1 ++ t1))%nat).
  { apply (Hshort body1 t1 (rest1 ++ rest) Hterm1).
    rewrite Heq, <- !app_assoc. reflexivity. }
  apply (f_equal length) in Heq. rewrite !length_app in *.
  destruct rest1; [reflexivity | simpl in *; lia].
Qed.

Lemma osc_re_consuming s m rest :
  _OSC_RE s = Some (m, rest) -> s = m ++ rest /\ m <> [].
Proof.
  intros H. destruct (osc_re_run _ _ _ H) as (s' & m' & -> & -> & Hm).
  destruct (osc_body_terminator_sound _ _ _ Hm) as (-> & _).
  split; [reflexivity | discriminate].
Qed.

Lemma osc_re_complete s :
  _OSC_RE s = None ->
  forall m rest, s = m ++ rest -> ~ osc_run m.
Proof.
  intros Hnone m rest -> (body & t & -> & Ht).
  simpl in Hnone. rewrite <- !app_assoc in Hnone.
  destruct (osc_body_terminator (body ++ t ++ rest)) as [[? ?]|] eqn:Hm;
    [discriminate|].
  exact (osc_body_terminator_complete body t rest Ht Hm).
Qed.

Lemma no_terminator_tl c tail : no_terminator (c :: tail) -> no_terminator tail.
Proof. intros H before after ->. apply (H (c :: before) after). reflexivity. Qed.

Lemma osc_body_terminator_none tail :
  no_terminator tail -> osc_body_terminator tail = None.
Proof.
  induction tail as [|c tail IH]; intros Hno;
    rewrite osc_body_terminator_unfold, (Hno [] _ eq_refl).
  - reflexivity.
  - rewrite IH; [reflexivity|]. eapply no_terminator_tl; eauto.
Qed.

Lemma osc_terminator_blind tl c x :
  osc_terminator ((c :: x) ++ 27%N :: tl)
  = before_tail (27%N :: tl) (osc_terminator (c :: x)).
Proof.
  simpl. destruct (c =? 7)%N; [reflexivity|].
  destruct x as [|d x]; simpl.
  - destruct (c =? 27)%N; reflexivity.
  - destruct ((c =? 27)%N && (d =? 92)%N); reflexivity.
Qed.

Lemma osc_body_terminator_blind tl x :
  no_terminator (27%N :: tl) ->
  osc_body_terminator (x ++ 27%N :: tl)
  = before_tail (27%N :: tl) (osc_body_terminator x).
Proof.
  intros Hno. induction x as [|c x IH].
  - simpl app. rewrite (osc_body_terminator_none _ Hno). reflexivity.
  - rewrite (osc_body_terminator_unfold (c :: x)),
            (osc_body_terminator_unfold ((c :: x) ++ _)),
            osc_terminator_blind.
    destruct (osc_terminator (c :: x)) as [[t r]|]; [reflexivity|].
    simpl. rewrite IH.
    destruct (osc_body_terminator x) as [[m r]|]; reflexivity.
Qed.

Lemma osc_re_blind tl x :
  no_terminator (27%N :: tl) ->
  x <> [] ->
  _OSC_RE (x ++ 27%N :: tl) = before_tail (27%N :: tl) (_OSC_RE x).
Proof.
  intros Hno Hx. destruct x as [|c0 [|c1 x]]; [contradiction| |].
  - simpl. destruct (c0 =? 27)%N; reflexivity.
  - simpl. rewrite (osc_body_terminator_blind _ _ Hno).
    destruct ((c0 =? 27)%N && (c1 =? 93)%N); [|reflexivity].
    destruct (osc_body_terminator x) as [[m r]|]; reflexivity.
Qed.

Lemma matches_nowhere_spec pattern s :
  matches_nowhere pattern s = true ->
  forall before after, s = before ++ after -> pattern after = None.
Proof.
  induction s as [|c s IH]; simpl; intros H before after Heq.
  - destruct before, after; try discriminate.
    destruct (pattern []); [discriminate | reflexivity].
  - destruct (pattern (c :: s)) eqn:Hm; [discriminate|].
    destruct before as [|b before].
    + simpl in Heq. subst after. exact Hm.
    + injection Heq as <- ->. eapply IH; eauto.
Qed.

Lemma no_occurrence (P : pystr -> Prop) pattern text :
  (forall s m rest, pattern s = Some (m, rest) -> s = m ++ rest /\ P m) ->
  ~ occurs P text ->
  forall before after, text = before ++ after -> pattern after = None.
Proof.
  intros Hsound Hno before after ->.
  destruct (pattern after) as [[m rest]|] eqn:Hm; [|reflexivity].
  destruct (Hsound _ _ _ Hm) as [-> HP].
  exfalso. apply Hno. exists before, m, rest. auto.
Qed.

Lemma nowhere_no_occurrence (P : pystr -> Prop) pattern text :
  (forall s, pattern s = None -> forall m rest, s = m ++ rest -> ~ P m) ->
  matches_nowhere pattern text = true ->
  ~ occurs P text.
Proof.
  intros Hcomplete Hnowhere (before & m & after & -> & HP).
  pose proof (matches_nowhere_spec _ _ Hnowhere before (m ++ after) eq_refl) as Hm.
  exact (Hcomplete _ Hm m after eq_refl HP).
Qed.

Lemma no_dec_private_occurrence text :
  matches_nowhere _DEC_PRIVATE_RE text = true ->
  ~ occurs dec_private_sequence text.
Proof. apply nowhere_no_occurrence, dec_re_complete. Qed.

Lemma no_osc_occurrence text :
  matches_nowhere _OSC_RE text = true -> ~ occurs osc_sequence text.
Proof.
  apply nowhere_no_occurrence. intros s Hs m rest Heq [Hrun _].
  exact (osc_re_complete s Hs m rest Heq Hrun).
Qed.

Lemma no_terminator_occurrence text :
  matches_nowhere osc_terminator text = true -> ~ occurs terminator text.
Proof.
  apply nowhere_no_occurrence. intros s Hs m rest Heq Ht.
  exact (osc_terminator_complete s Hs m rest Ht Heq).
Qed.

Lemma terminator_free tail : ~ occurs terminator tail -> no_terminator tail.
Proof.
  intros H. exact (no_occurrence terminator osc_terminator tail osc_terminator_sound H).
Qed.

(** ** Normalizer *)

(** One pass that deletes what its pattern matches and warns of it. *)
Lemma sub_scrubs (P : pystr -> Prop) pattern (warn : pystr -> ParseWarning) :
  (forall s m rest, pattern s = Some (m, rest) -> s = m ++ rest /\ m <> []) ->
  (forall s m rest, pattern s = Some (m, rest) -> P m) ->
  (forall s, pattern s = None -> forall m rest, s = m ++ rest -> ~ P m) ->
  forall text ws,
  exists out ms,
    sub pattern (fun m ws => ([], ws ++ [warn m])) text ws
    = (out, ws ++ map warn ms)
    /\ scrubbed P text out ms.
Proof.
  intros Hcons Hsound Hcomplete text ws.
  destruct (sub_rel pattern (fun m ws => ([], ws ++ [warn m])) Hcons
              (fun text ws out ws' =>
                 exists ms, ws' = ws ++ map warn ms /\ scrubbed P text out ms))
    with (s := text) (st := ws) as (out & ws' & Hsub & ms & -> & Hscr).
  - intros st. exists []. rewrite app_nil_r. split; [reflexivity|constructor].
  - intros s m rest st r st1 out st2 Hm [= <- <-] (ms & -> & Hscr).
    exists (m :: ms). simpl. rewrite <- app_assoc. split; [reflexivity|].
    destruct (Hcons _ _ _ Hm) as [-> _]. constructor; eauto.
  - intros c s st out st1 Hm (ms & -> & Hscr).
    exists ms. split; [reflexivity|]. constructor; eauto.
  - exists out, ms. auto.
Qed.

(** C4 (as the code has it). With both capabilities false, [normalize]
    decodes the chunk, deletes from the decoded text, reading from left
    to right, every DEC private sequence it meets, and then deletes in
    the same way every OSC sequence from the text that is left; it
    gives one warning for each deleted sequence, the DEC private ones
    first, of kind dec-private or osc-suppressed, quoting the deleted
    sequence; all other characters stay, in order. *)
Theorem normalize_all_false_scrubs (chunk : pybytes) :
  exists mid ms_dec ms_osc,
    scrubbed dec_private_sequence (utf8.decode_ignore chunk) mid ms_dec
    /\ scrubbed osc_sequence mid (fst (normalize all_false chunk)) ms_osc
    /\ snd (normalize all_false chunk)
       = map dec_warning ms_dec ++ map osc_warning ms_osc.
Proof.
  unfold normalize, normalize_text.
  destruct (sub_scrubs dec_private_sequence _DEC_PRIVATE_RE dec_warning
              dec_re_consuming
              (fun s m rest H => proj2 (dec_re_sound s m rest H))
              dec_re_complete (utf8.decode_ignore chunk) [])
    as (mid & ms_dec & Hdec & Hscr_dec).
  destruct (sub_scrubs osc_sequence _OSC_RE osc_warning
              osc_re_consuming
              (fun s m rest H => proj2 (osc_re_sound s m rest H))
              (fun s Hs m rest Heq Hm => osc_re_complete s Hs m rest Heq (proj1 Hm))
              mid ([] ++ map dec_warning ms_dec))
    as (out & ms_osc & Hosc & Hscr_osc).
  exists mid, ms_dec, ms_osc. cbv zeta.
  change (_dec_repl all_false)
    with (fun (m : pystr) ws => (@nil N, ws ++ [dec_warning m])).
  change (_osc_repl all_false)
    with (fun (m : pystr) ws => (@nil N, ws ++ [osc_warning m])).
  rewrite Hdec, Hosc. simpl. auto.
Qed.

(** The chunk of the specification's fourth scenario: only [Hello]
    is left, with one warning of each kind. *)
Example normalize_suppresses_scenario :
  normalize all_false
    (bytes_lit ([27; 91; 63; 50; 53; 108] ++ [72; 101; 108; 108; 111]
                ++ [27; 93; 56; 59; 59] ++ [104; 116; 116; 112; 115; 58; 47; 47]
                ++ [101; 120; 97; 109; 112; 108; 101; 46; 99; 111; 109]
                ++ [27; 92])%N)
  = (py "Hello",
     [dec_warning [27; 91; 63; 50; 53; 108]%N;
      osc_warning ([27; 93; 56; 59; 59] ++ py "https://example.com" ++ [27; 92])%N]).
Proof. vm_compute. reflexivity. Qed.

Lemma adjacent_spec a b s before after :
  s = before ++ a :: b :: after -> adjacent a b s = true.
Proof.
  revert s. induction before as [|c before IH]; intros s ->.
  - simpl. rewrite !N.eqb_refl. reflexivity.
  - specialize (IH _ eq_refl). simpl app.
    destruct (before ++ a :: b :: after) as [|d s'] eqn:Hs.
    + destruct before; discriminate.
    + change (adjacent a b (c :: d :: s'))
        with (((c =? a)%N && (d =? b)%N) || adjacent a b (d :: s')).
      rewrite IH. apply orb_true_r.
Qed.

(** C4, counterexample. In the chunk ESC ESC [ ? 2 5 l ] x BEL no OSC
    sequence occurs; once the DEC private sequence is deleted the first
    ESC meets the bracket, and an OSC warning is given that quotes a
    text which is nowhere in the input. *)
Lemma osc_warning_not_of_input :
  ~ warnings_quote_input_sequences
      (bytes_lit [27; 27; 91; 63; 50; 53; 108; 93; 120; 7]%N).
Proof.
  intros H.
  destruct (H (osc_warning [27; 93; 120; 7]%N))
    as (before & m & after & Heq & [[_ Hw] | [[Hrun _] _]]).
  - apply list_elem_of_In. vm_compute. right. left. reflexivity.
  - apply (f_equal kind) in Hw. vm_compute in Hw. discriminate.
  - destruct Hrun as (body & t & -> & _).
    assert (Hadj : adjacent 27 93
              (utf8.decode_ignore
                 (bytes_lit [27; 27; 91; 63; 50; 53; 108; 93; 120; 7]%N)) = true).
    { eapply adjacent_spec. rewrite Heq. simpl. reflexivity. }
    vm_compute in Hadj. discriminate.
Qed.

(** C5 (as the code has it). For every chunk whose decoded text holds
    no DEC private and no OSC sequence, and for all capabilities,
    [normalize] returns the lossy UTF-8 decoding of the chunk and no
    warning. The patterns are applied to the decoded text, not to the
    bytes. *)
Theorem normalize_plain_chunk (caps : TerminalCapabilities) (chunk : pybytes) :
  ~ occurs dec_private_sequence (utf8.decode_ignore chunk) ->
  ~ occurs osc_sequence (utf8.decode_ignore chunk) ->
  normalize caps chunk = (utf8.decode_ignore chunk, []).
Proof.
  intros Hdec Hosc. unfold normalize, normalize_text. cbv zeta.
  rewrite (sub_no_match _ _ dec_re_consuming);
    [|exact (no_occurrence _ _ _ dec_re_sound Hdec)].
  rewrite (sub_no_match _ _ osc_re_consuming);
    [|exact (no_occurrence _ _ _ osc_re_sound Hosc)].
  reflexivity.
Qed.

(** A chunk with a colour sequence and a two-byte character, under
    capabilities that allow nothing. *)
Lemma normalize_plain_chunk_witness :
  normalize all_false (bytes_lit [27; 91; 51; 49; 109; 195; 169; 33]%N)
  = (utf8.decode_ignore (bytes_lit [27; 91; 51; 49; 109; 195; 169; 33]%N), []).
Proof.
  apply (normalize_plain_chunk all_false).
  - apply no_dec_private_occurrence. vm_compute. reflexivity.
  - apply no_osc_occurrence. vm_compute. reflexivity.
Defined.

Lemma lor_not_128 (a y : N) : N.testbit a 6 = true -> N.lor a y <> 128%N.
Proof.
  intros Ha Heq. apply (f_equal (fun n => N.testbit n 6)) in Heq.
  rewrite N.lor_spec, Ha in Heq. discriminate.
Qed.

(** No UTF-8 encoding of a code point begins with the byte 80. *)
Lemma encode_cp_first (c : N) (values : list N) :
  utf8.encode_cp c = Some values ->
  exists b values', values = b :: values' /\ b <> 128%N.
Proof.
  unfold utf8.encode_cp.
  destruct (N.ltb_spec c 128).
  { intros [= <-]. exists c, []. split; [reflexivity | lia]. }
  destruct (c <? 2048)%N.
  { intros [= <-]. eexists _, _. split; [reflexivity|].
    apply lor_not_128. reflexivity. }
  destruct ((55296 <=? c)%N && (c <? 57344)%N); [discriminate|].
  destruct (c <? 65536)%N.
  { intros [= <-]. eexists _, _. split; [reflexivity|].
    apply lor_not_128. reflexivity. }
  destruct (c <? 1114112)%N; [|discriminate].
  intros [= <-]. eexists _, _. split; [reflexivity|].
  apply lor_not_128. reflexivity.
Qed.

Lemma encode_values_first (c : N) (text : pystr) (values : list N) :
  utf8.encode_values (c :: text) = Some values ->
  exists b values', values = b :: values' /\ b <> 128%N.
Proof.
  simpl. destruct (utf8.encode_cp c) as [bs|] eqn:Hc; [|discriminate].
  destruct (utf8.encode_values text) as [rest|]; [|discriminate].
  intros [= <-]. destruct (encode_cp_first c bs Hc) as (b & bs' & -> & Hb).
  exists b, (bs' ++ rest). auto.
Qed.

(** C5, counterexample. Among the bytes ESC [ ? 80 h there is no DEC
    private and no OSC sequence: the byte 80, which begins no
    character, stands between the question mark and the final [h].
    The decoding drops that byte, the decoded text is the DEC private
    sequence ESC [ ? h, and with no capability [normalize] returns the
    empty text and a warning. *)
Lemma plain_bytes_changed :
  ~ plain_bytes_unchanged (bytes_lit [27; 91; 63; 128; 104]%N).
Proof.
  intros H.
  assert (Hvalues :
            map Byte.to_N (bytes_lit [27; 91; 63; 128; 104]%N)
            = [27; 91; 63; 128; 104]%N) by reflexivity.
  assert (Hdec : ~ occurs_in_bytes dec_private_sequence
                     (bytes_lit [27; 91; 63; 128; 104]%N)).
  { intros (before & text & after & values & Henc
            & (params & c & -> & _ & _) & Heq).
    rewrite Hvalues in Heq.
    change (([27; 91; 63] ++ params ++ [c])%N)
      with (27 :: 91 :: 63 :: params ++ [c])%N in Henc.
    cbn [utf8.encode_values] in Henc.
    change (utf8.encode_cp 27) with (Some [27%N]) in Henc.
    change (utf8.encode_cp 91) with (Some [91%N]) in Henc.
    change (utf8.encode_cp 63) with (Some [63%N]) in Henc.
    destruct (params ++ [c]) as [|r0 rest] eqn:Hrest;
      [destruct params; discriminate|].
    destruct (utf8.encode_values (r0 :: rest)) as [vs|] eqn:Hvs;
      [|discriminate].
    destruct (encode_values_first r0 rest vs Hvs) as (b & vs' & -> & Hb).
    injection Henc as <-. simpl in Heq.
    destruct before as [|x0 [|x1 [|x2 [|x3 [|x4 [|x5 before]]]]]];
      simpl in Heq; congruence. }
  assert (Hosc : ~ occurs_in_bytes osc_sequence
                     (bytes_lit [27; 91; 63; 128; 104]%N)).
  { intros (before & text & after & values & Henc
            & ((body & t & -> & _) & _) & Heq).
    rewrite Hvalues in Heq.
    change (([27; 93] ++ body ++ t)%N) with (27 :: 93 :: body ++ t)%N in Henc.
    cbn [utf8.encode_values] in Henc.
    change (utf8.encode_cp 27) with (Some [27%N]) in Henc.
    change (utf8.encode_cp 93) with (Some [93%N]) in Henc.
    destruct (utf8.encode_values (body ++ t)) as [vs|]; [|discriminate].
    injection Henc as <-. simpl in Heq.
    destruct before as [|x0 [|x1 [|x2 [|x3 [|x4 [|x5 before]]]]]];
      simpl in Heq; congruence. }
  specialize (H Hdec Hosc all_false). vm_compute in H. discriminate.
Qed.

(** ** Sequences cut by the end of a chunk *)

Lemma osc_re_none_without_terminator tail :
  no_terminator tail ->
  forall before after, tail = before ++ after -> _OSC_RE after = None.
Proof.
  intros Hno before after ->.
  destruct (_OSC_RE after) as [[m rest]|] eqn:Hm; [|reflexivity].
  destruct (osc_re_run _ _ _ Hm) as (s' & m' & -> & -> & Hbody).
  rewrite osc_body_terminator_none in Hbody; [discriminate|].
  intros b a ->. apply (Hno (before ++ 27%N :: 93%N :: b) a).
  rewrite <- app_assoc. reflexivity.
Qed.

(** A tail that begins with ESC, holds no terminator and, where DEC
    private sequences are not allowed, none of them, leaves [normalize]
    as it came, behind the normalized text that precedes it. *)
Lemma normalize_text_tail (caps : TerminalCapabilities) (pre tl : pystr) :
  ~ occurs terminator (27%N :: tl) ->
  supports_dec_private caps = true
  \/ ~ occurs dec_private_sequence (27%N :: tl) ->
  normalize_text caps (pre ++ 27%N :: tl)
  = (fst (normalize_text caps pre) ++ 27%N :: tl,
     snd (normalize_text caps pre)).
Proof.
  intros Hterm Hdec. apply terminator_free in Hterm.
  unfold normalize_text. cbv zeta.
  assert (Hpass1 :
    sub _DEC_PRIVATE_RE (_dec_repl caps) (pre ++ 27%N :: tl) []
    = let '(out, ws) := sub _DEC_PRIVATE_RE (_dec_repl caps) pre [] in
      (out ++ 27%N :: tl, ws)).
  { destruct Hdec as [Hcap | Hfree].
    - assert (Hid : forall m st, _dec_repl caps m st = (m, st)).
      { intros m st. unfold _dec_repl. rewrite Hcap. reflexivity. }
      rewrite !(sub_identity _ _ dec_re_consuming) by exact Hid. reflexivity.
    - apply (sub_blind_tail _ _ dec_re_consuming).
      + intros st. apply (sub_no_match _ _ dec_re_consuming).
        exact (no_occurrence _ _ _ dec_re_sound Hfree).
      + intros x Hx. apply dec_re_blind. exact Hx. }
  rewrite Hpass1.
  destruct (sub _DEC_PRIVATE_RE (_dec_repl caps) pre []) as [out1 ws1].
  rewrite (sub_blind_tail _ _ osc_re_consuming (27%N :: tl)).
  - destruct (sub _OSC_RE (_osc_repl caps) out1 ws1) as [out2 ws2]. reflexivity.
  - intros st. apply (sub_no_match _ _ osc_re_consuming).
    exact (osc_re_none_without_terminator _ Hterm).
  - intros x Hx. apply osc_re_blind; assumption.
Qed.

Lemma collector_entries (coll : list WarningEntry) (offset : Z)
    (warns : list ParseWarning) :
  foldl (fun entries w =>
           entries ++ [ {| entry_offset := offset; warning := w |} ])
        coll warns
  = coll ++ entries_at offset warns.
Proof.
  revert coll. induction warns as [|w warns IH]; intros coll; simpl.
  - symmetry. apply app_nil_r.
  - rewrite IH, <- app_assoc. reflexivity.
Qed.

Lemma handle_read_first (c1 c2 : pybytes) :
  c1 <> [] -> handle_read (len c1) (c1 ++ c2) = inr (c1, c2).
Proof.
  intros Hne. unfold handle_read, len.
  destruct (Z.ltb_spec (Z.of_nat (length c1)) (-1)); [lia|].
  destruct (Z.eqb_spec (Z.of_nat (length c1)) (-1)); [lia|].
  rewrite Nat2Z.id, take_app_length, drop_app_length. reflexivity.
Qed.

Lemma handle_read_last (size : Z) (c2 : pybytes) :
  len c2 <= size -> handle_read size c2 = inr (c2, []).
Proof.
  intros Hle. unfold handle_read, len in *.
  destruct (Z.ltb_spec size (-1)); [lia|].
  destruct (Z.eqb_spec size (-1)); [lia|].
  rewrite take_ge, drop_ge by lia. reflexivity.
Qed.

Lemma handle_read_end (size : Z) :
  0 <= size -> handle_read size [] = inr ([], []).
Proof.
  intros Hle. unfold handle_read.
  destruct (Z.ltb_spec size (-1)); [lia|].
  destruct (Z.eqb_spec size (-1)); [lia|].
  rewrite take_nil, drop_nil. reflexivity.
Qed.

Lemma parse_loop_step {vt : VtEngine} fuel caps size st raw rest :
  handle_read size (ps_handle st) = inr (raw, rest) ->
  raw <> [] ->
  parse_loop (S fuel) caps size st
  = parse_loop fuel caps size (parse_chunk caps st raw rest).
Proof.
  intros Hread Hne. simpl. rewrite Hread.
  destruct raw; [contradiction | reflexivity].
Qed.

Lemma parse_loop_break {vt : VtEngine} fuel caps size st rest :
  handle_read size (ps_handle st) = inr ([], rest) ->
  parse_loop (S fuel) caps size st = Some (inr st).
Proof. intros Hread. simpl. rewrite Hread. reflexivity. Qed.

Lemma parse_chunk_eq {vt : VtEngine} caps st raw rest :
  parse_chunk caps st raw rest
  = {| ps_screen :=
         match fst (normalize caps raw) with
         | [] => ps_screen st
         | _ :: _ => feed (ps_screen st) (fst (normalize caps raw))
         end;
       ps_states :=
         ps_states st
         ++ match fst (normalize caps raw) with
            | [] => []
            | _ :: _ =>
              [_snapshot (feed (ps_screen st) (fst (normalize caps raw)))
                         (ps_consumed st + len raw)]
            end;
       ps_collector :=
         ps_collector st
         ++ entries_at (ps_consumed st) (snd (normalize caps raw));
       ps_consumed := ps_consumed st + len raw;
       ps_handle := rest |}.
Proof.
  unfold parse_chunk.
  destruct (normalize caps raw) as [[|c text] warns]; simpl;
    rewrite collector_entries.
  - rewrite app_nil_r. reflexivity.
  - reflexivity.
Qed.

(** A text with no DEC private and no OSC sequence goes through the
    two passes as it is. *)
Lemma normalize_text_free (caps : TerminalCapabilities) (text : pystr) :
  ~ occurs dec_private_sequence text ->
  ~ occurs osc_sequence text ->
  normalize_text caps text = (text, []).
Proof.
  intros Hdec Hosc. unfold normalize_text. cbv zeta.
  rewrite (sub_no_match _ _ dec_re_consuming);
    [|exact (no_occurrence _ _ _ dec_re_sound Hdec)].
  rewrite (sub_no_match _ _ osc_re_consuming);
    [|exact (no_occurrence _ _ _ osc_re_sound Hosc)].
  reflexivity.
Qed.

Lemma total_len_app (a b : list pybytes) :
  total_len (a ++ b) = total_len a + total_len b.
Proof.
  induction a as [|c a IH]; simpl; [reflexivity|]. rewrite IH. lia.
Qed.

Section replay_facts.
Context {vt : VtEngine}.
Variable caps : TerminalCapabilities.

Lemma fed_app (screen : Screen) (a b : list pybytes) :
  fed caps screen (a ++ b) = fed caps (fed caps screen a) b.
Proof using Type.
  revert screen. induction a as [|c a IH]; intros screen; [reflexivity|].
  cbn [app fed]. destruct (fst (normalize caps c)); apply IH.
Qed.

Lemma replayed_app (screen : Screen) (start : Z) (a b : list pybytes) :
  replayed caps screen start (a ++ b)
  = replayed caps screen start a
    ++ replayed caps (fed caps screen a) (start + total_len a) b.
Proof using Type.
  revert screen start. induction a as [|c a IH]; intros screen start.
  - cbn [app replayed fed total_len foldr]. rewrite Z.add_0_r. reflexivity.
  - cbn [app replayed fed]. cbv zeta.
    replace (start + total_len (c :: a)) with (start + len c + total_len a)
      by (simpl; lia).
    destruct (fst (normalize caps c)).
    + apply IH.
    + rewrite IH. reflexivity.
Qed.

Lemma warned_app (start : Z) (a b : list pybytes) :
  warned caps start (a ++ b)
  = warned caps start a ++ warned caps (start + total_len a) b.
Proof using Type.
  revert start. induction a as [|c a IH]; intros start.
  - cbn [app warned total_len foldr]. rewrite Z.add_0_r. reflexivity.
  - cbn [app warned]. rewrite IH, <- app_assoc.
    replace (start + total_len (c :: a)) with (start + len c + total_len a)
      by (simpl; lia).
    reflexivity.
Qed.

(** The loop of [parse] replays the chunks it reads, each normalized
    on its own. *)
Lemma parse_loop_replays (chunk_size : Z) :
  -1 <= chunk_size ->
  forall fuel st,
    (length (ps_handle st) < fuel)%nat ->
    let chunks := reads_from fuel chunk_size (ps_handle st) in
    exists st',
      parse_loop fuel caps chunk_size st = Some (inr st')
      /\ ps_screen st' = fed caps (ps_screen st) chunks
      /\ ps_states st'
         = ps_states st
           ++ replayed caps (ps_screen st) (ps_consumed st) chunks
      /\ ps_collector st'
         = ps_collector st ++ warned caps (ps_consumed st) chunks.
Proof using Type.
  intros Hn. induction fuel as [|fuel IH]; intros st Hfuel; [lia|].
  destruct (handle_read_split chunk_size (ps_handle st) Hn)
    as (raw & rest & Hread & Hsplit).
  cbv zeta. cbn [parse_loop reads_from]. rewrite Hread.
  destruct raw as [|b raw].
  - exists st. cbn [fed replayed warned]. rewrite !app_nil_r. auto.
  - set (raw' := b :: raw) in *. rewrite parse_chunk_eq.
    match goal with
    | |- context [parse_loop fuel caps chunk_size ?s] => set (st1 := s)
    end.
    assert (Hlt : (length (ps_handle st1) < fuel)%nat).
    { simpl. rewrite Hsplit, length_app in Hfuel. unfold raw' in Hfuel.
      simpl in Hfuel. lia. }
    destruct (IH st1 Hlt) as (st' & Hrun & Hscr & Hst & Hcoll).
    exists st'. split; [exact Hrun|].
    rewrite Hscr, Hst, Hcoll. unfold st1.
    cbn [ps_screen ps_states ps_collector ps_consumed ps_handle
         fed replayed warned].
    cbv zeta. rewrite <- !app_assoc.
    destruct (fst (normalize caps raw')); auto.
Qed.
End replay_facts.

(** C10 (as the code has it). Let the decoded text of a chunk end in a
    tail that begins with ESC and holds no OSC terminator (BEL, or ESC
    and backslash) and, unless DEC private sequences are allowed, no
    complete DEC private sequence: the start of an OSC or DEC private
    sequence that the chunk cuts short. For all capabilities,
    [normalize] gives the normalized text of what precedes the tail,
    then the tail unchanged, and only the warnings of what precedes
    it. For every file and every chunk size that [read] accepts (from
    -1, to the end of the file, up to the largest size of the
    platform), [parse] normalizes each chunk it reads on its own: where such a chunk is read, at any place of
    the file, the tail is fed to the emulator with that chunk and no
    warning is recorded for it, and the chunks before and after it
    give the states and warnings of their own normalized texts, no
    match reaching across a chunk boundary. The rest of the cut
    sequence is so normalized with the next chunk, as if it began
    there: where the decoded text of that chunk holds no DEC private
    and no OSC sequence by itself, it is fed unchanged after the tail
    and nothing is warned of. *)
Theorem split_sequence_reaches_engine {vt : VtEngine}
    (p : AnsiReplayParser) (data : pybytes) (chunk_size : Z)
    (before : list pybytes) (chunk : pybytes) (after : list pybytes)
    (pre tl : pystr) :
  let caps := _handler p in
  let tail := 27%N :: tl in
  let kept := fst (normalize_text caps pre) ++ tail in
  let screen0 := screen_new (cols (_size p)) (rows (_size p)) in
  let screen1 := feed (fed caps screen0 before) kept in
  let start := total_len before in
  let stop := start + len chunk in
  -1 <= chunk_size < 2 ^ 63 ->
  reads chunk_size data = before ++ chunk :: after ->
  utf8.decode_ignore chunk = pre ++ tail ->
  ~ occurs terminator tail ->
  supports_dec_private caps = true \/ ~ occurs dec_private_sequence tail ->
  normalize caps chunk = (kept, snd (normalize_text caps pre))
  /\ (exists p',
        parse p data chunk_size
        = Some (inr (p',
            {| states :=
                 replayed caps screen0 0 before
                 ++ _snapshot screen1 stop
                    :: replayed caps screen1 stop after;
               warnings :=
                 warned caps 0 before
                 ++ entries_at start (snd (normalize_text caps pre))
                 ++ warned caps stop after |})))
  /\ forall next rest,
       after = next :: rest ->
       ~ occurs dec_private_sequence (utf8.decode_ignore next) ->
       ~ occurs osc_sequence (utf8.decode_ignore next) ->
       replayed caps screen1 stop after
       = match utf8.decode_ignore next with
         | [] => replayed caps screen1 (stop + len next) rest
         | (_ :: _) as text =>
           _snapshot (feed screen1 text) (stop + len next)
           :: replayed caps (feed screen1 text) (stop + len next) rest
         end
       /\ warned caps stop after = warned caps (stop + len next) rest.
Proof.
  intros caps tail kept screen0 screen1 start stop [Hn _] Hreads Hdecode Hterm
    Hdec.
  assert (Hnorm : normalize caps chunk = (kept, snd (normalize_text caps pre))).
  { unfold normalize. rewrite Hdecode. apply normalize_text_tail; assumption. }
  split; [exact Hnorm|]. split.
  - assert (Hkept : exists k0 kept', kept = k0 :: kept').
    { unfold kept, tail. destruct (fst (normalize_text caps pre)); simpl; eauto. }
    destruct Hkept as (k0 & kept' & Hkept).
    unfold parse. fold caps. fold screen0.
    set (st0 := {| ps_screen := screen0; ps_states := []; ps_collector := [];
                   ps_consumed := 0; ps_handle := data |}).
    destruct (parse_loop_replays caps chunk_size Hn (S (length data)) st0)
      as (st' & Hrun & _ & Hst & Hcoll); [simpl; lia|].
    assert (Hstates :
              ps_states st'
              = replayed caps screen0 0 before
                ++ _snapshot screen1 stop :: replayed caps screen1 stop after).
    { rewrite Hst. unfold st0.
      cbn [ps_states ps_screen ps_consumed ps_handle app].
      fold (reads chunk_size data). rewrite Hreads, replayed_app.
      cbn [replayed]. cbv zeta. rewrite Hnorm. cbn [fst].
      rewrite Z.add_0_l. fold start. fold stop. unfold screen1.
      rewrite Hkept. reflexivity. }
    assert (Hwarnings :
              ps_collector st'
              = warned caps 0 before
                ++ entries_at start (snd (normalize_text caps pre))
                ++ warned caps stop after).
    { rewrite Hcoll. unfold st0.
      cbn [ps_collector ps_consumed ps_handle app].
      fold (reads chunk_size data). rewrite Hreads, warned_app.
      cbn [warned]. rewrite Hnorm. cbn [snd].
      rewrite Z.add_0_l. reflexivity. }
    rewrite Hrun, Hstates, Hwarnings. eexists. reflexivity.
  - intros next rest -> Hd Ho. cbn [replayed warned]. cbv zeta.
    unfold normalize. rewrite (normalize_text_free caps _ Hd Ho). cbn [fst snd].
    split; [|reflexivity]. destruct (utf8.decode_ignore next); reflexivity.
Qed.

(** An OSC sequence that sets a title, cut after six bytes: the
    emulator that logs its input gets the whole sequence, in two
    pieces, and no warning is recorded. *)
Lemma split_sequence_reaches_engine_witness :
  let p := {| _size := PtySize_default; _handler := all_false;
              _collector := []; _bytes_consumed := 0 |} in
  let c1 := bytes_lit [27; 93; 48; 59; 116; 105]%N in
  let c2 := bytes_lit [116; 108; 101; 7]%N in
  let tail := [27; 93; 48; 59; 116; 105]%N in
  let screen1 := feed (VtEngine := TextLog) [] tail in
  normalize all_false c1 = (tail, [])
  /\ (exists p',
        parse (vt := TextLog) p (c1 ++ c2) 6
        = Some (inr (p',
            {| states :=
                 [_snapshot (vt := TextLog) screen1 6;
                  _snapshot (vt := TextLog)
                    ([27; 93; 48; 59; 116; 105; 116; 108; 101; 7]%N) 10];
               warnings := [] |})))
  /\ replayed (vt := TextLog) all_false screen1 6 [c2]
     = [_snapshot (vt := TextLog)
          (feed (VtEngine := TextLog) screen1 (utf8.decode_ignore c2)) 10].
Proof.
  intros p c1 c2 tail screen1.
  assert (Hterm : ~ occurs terminator tail)
    by (apply no_terminator_occurrence; vm_compute; reflexivity).
  assert (Hdec : supports_dec_private all_false = true
                 \/ ~ occurs dec_private_sequence tail)
    by (right; apply no_dec_private_occurrence; vm_compute; reflexivity).
  assert (Hd2 : ~ occurs dec_private_sequence (utf8.decode_ignore c2))
    by (apply no_dec_private_occurrence; vm_compute; reflexivity).
  assert (Ho2 : ~ occurs osc_sequence (utf8.decode_ignore c2))
    by (apply no_osc_occurrence; vm_compute; reflexivity).
  destruct (split_sequence_reaches_engine (vt := TextLog) p (c1 ++ c2) 6
              [] c1 [c2] [] [93; 48; 59; 116; 105]%N
              ltac:(split; [lia | reflexivity]) eq_refl eq_refl Hterm Hdec)
    as (Hnorm & Hparse & Hnext).
  split; [exact Hnorm|]. split; [exact Hparse|].
  exact (proj1 (Hnext c2 [] eq_refl Hd2 Ho2)).
Defined.

(** The rest of a cut sequence that holds a complete sequence by
    itself: of the text ESC ] 0 ; a b ESC ] x BEL, cut after six
    bytes, the first piece is fed to the emulator, and the second is
    deleted as an OSC sequence of its own, with a warning at offset
    six. *)
Example split_remainder_normalized_alone :
  let p := {| _size := PtySize_default; _handler := all_false;
              _collector := []; _bytes_consumed := 0 |} in
  let c1 := bytes_lit [27; 93; 48; 59; 97; 98]%N in
  let c2 := bytes_lit [27; 93; 120; 7]%N in
  exists p',
    parse (vt := TextLog) p (c1 ++ c2) 6
    = Some (inr (p',
        {| states := [_snapshot (vt := TextLog) [27; 93; 48; 59; 97; 98]%N 6];
           warnings := [ {| entry_offset := 6;
                            warning := osc_warning [27; 93; 120; 7]%N |} ] |})).
Proof. eexists. vm_compute. reflexivity. Qed.

(** C10, counterexample. In the chunk ESC ] x ESC ESC [ ? 1 h \ the OSC
    introducer has no terminator behind it; once the DEC private
    sequence is deleted the second ESC meets the backslash, and the
    whole is deleted as an OSC sequence. *)
Lemma unterminated_osc_deleted :
  ~ unterminated_osc_untouched
      (bytes_lit [27; 93; 120; 27; 27; 91; 63; 49; 104; 92]%N).
Proof.
  intros H.
  destruct (H [] [120; 27; 27; 91; 63; 49; 104; 92]%N) as [[out Hout] _].
  - vm_compute. reflexivity.
  - apply no_terminator_occurrence. vm_compute. reflexivity.
  - vm_compute in Hout. destruct out; discriminate.
Qed.

(** ** Output buffer: waiting for a predicate *)

Section waiting.
Variable p : pystr -> bool.
Variable history : Q -> OutputBuffer.
Variable deadline : Q.

Let holds (now : Q) : bool := p (_decode_locked (history now)).

(** The passes before pass [k] found the predicate false and the
    deadline ahead. *)
Let waited (evals : list Q) (k : nat) : Prop :=
  forall j earlier, (j < k)%nat -> evals !! j = Some earlier ->
    holds earlier = false /\ (earlier < deadline)%Q.

Lemma expired_iff (now : Q) :
  Qle_bool (deadline - now) 0 = true <-> (deadline <= now)%Q.
Proof using Type. rewrite Qle_bool_iff. split; intros H; lra. Qed.

Lemma waited_cons now evals k :
  waited (now :: evals) (S k)
  <-> holds now = false /\ (now < deadline)%Q /\ waited evals k.
Proof using Type.
  split.
  - intros H. destruct (H O now ltac:(lia) eq_refl) as [Hp Hd].
    split; [exact Hp|]. split; [exact Hd|].
    intros j e Hj He. apply (H (S j) e); [lia | exact He].
  - intros (Hp & Hd & H) [|j] e Hj He.
    + injection He as <-. auto.
    + apply (H j e); [lia | exact He].
Qed.

Lemma wait_loop_true (evals : list Q) :
  wait_loop p deadline history evals = Some true
  <-> exists k now,
        evals !! k = Some now /\ holds now = true /\ waited evals k.
Proof using Type.
  induction evals as [|now evals IH]; simpl.
  - split; [discriminate | intros (k & e & H & _); destruct k; discriminate].
  - fold (holds now). destruct (holds now) eqn:Hp.
    + split; [|reflexivity]. intros _. exists O, now.
      split; [reflexivity|]. split; [exact Hp|]. intros j e Hj. lia.
    + destruct (Qle_bool (deadline - now) 0) eqn:Hd.
      * split; [discriminate|]. intros (k & e & Hk & He & Hw). exfalso.
        destruct k as [|k].
        -- injection Hk as <-. congruence.
        -- apply waited_cons in Hw. destruct Hw as (_ & Hlt & _).
           apply expired_iff in Hd. lra.
      * rewrite IH. split.
        -- intros (k & e & Hk & He & Hw). exists (S k), e.
           split; [exact Hk|]. split; [exact He|].
           apply waited_cons. split; [exact Hp|]. split; [|exact Hw].
           apply Qnot_le_lt. intros Hle. apply expired_iff in Hle. congruence.
        -- intros (k & e & Hk & He & Hw). destruct k as [|k].
           ++ injection Hk as <-. congruence.
           ++ apply waited_cons in Hw. destruct Hw as (_ & _ & Hw).
              exists k, e. auto.
Qed.

Lemma wait_loop_false (evals : list Q) :
  wait_loop p deadline history evals = Some false
  <-> exists k now,
        evals !! k = Some now /\ holds now = false
        /\ (deadline <= now)%Q /\ waited evals k.
Proof using Type.
  induction evals as [|now evals IH]; simpl.
  - split; [discriminate | intros (k & e & H & _); destruct k; discriminate].
  - fold (holds now). destruct (holds now) eqn:Hp.
    + split; [discriminate|]. intros (k & e & Hk & He & Hle & Hw). exfalso.
      destruct k as [|k].
      * injection Hk as <-. congruence.
      * apply waited_cons in Hw. destruct Hw as (Hf & _). congruence.
    + destruct (Qle_bool (deadline - now) 0) eqn:Hd.
      * split; [|reflexivity]. intros _. exists O, now.
        apply expired_iff in Hd.
        split; [reflexivity|]. split; [exact Hp|]. split; [exact Hd|].
        intros j e Hj. lia.
      * rewrite IH. split.
        -- intros (k & e & Hk & He & Hle & Hw). exists (S k), e.
           split; [exact Hk|]. split; [exact He|]. split; [exact Hle|].
           apply waited_cons. split; [exact Hp|]. split; [|exact Hw].
           apply Qnot_le_lt. intros Hle'. apply expired_iff in Hle'. congruence.
        -- intros (k & e & Hk & He & Hle & Hw). destruct k as [|k].
           ++ injection Hk as <-. apply expired_iff in Hle. congruence.
           ++ apply waited_cons in Hw. destruct Hw as (_ & _ & Hw).
              exists k, e. auto.
Qed.

Lemma wait_loop_static_true (b : OutputBuffer) (evals : list Q) :
  (forall now, history now = b) ->
  p (_decode_locked b) = true ->
  evals <> [] ->
  wait_loop p deadline history evals = Some true.
Proof using Type.
  intros Hb Hp Hne. destruct evals as [|now evals]; [contradiction|].
  simpl. rewrite Hb, Hp. reflexivity.
Qed.

Lemma wait_loop_static_false (b : OutputBuffer) (evals : list Q) :
  (forall now, history now = b) ->
  p (_decode_locked b) = false ->
  (exists now, now ∈ evals /\ (deadline <= now)%Q) ->
  wait_loop p deadline history evals = Some false.
Proof using Type.
  intros Hb Hp (late & Hin & Hlate).
  induction evals as [|now evals IH]; [inversion Hin|].
  simpl. rewrite Hb, Hp.
  destruct (Qle_bool (deadline - now) 0) eqn:Hd; [reflexivity|].
  apply IH. apply elem_of_cons in Hin. destruct Hin as [-> | Hin]; [|exact Hin].
  apply expired_iff in Hlate. congruence.
Qed.
End waiting.

(** C6 (as the code has it). A call of [wait_until] evaluates the
    predicate on the buffer when it is entered and each time it wakes
    up. It returns true exactly when the predicate holds at one of
    these evaluations and, at each one before it, the predicate was
    false and the deadline had not been reached; it returns false
    exactly when at one of these evaluations the predicate is false and
    the deadline is reached, nothing having ended the call before. So
    it never returns true unless the predicate was true of the buffer
    at an evaluation; and for a buffer that does not change it returns
    the value of the predicate on it: true at the first evaluation,
    false at the first evaluation at or after the deadline. *)
Theorem wait_until_evaluation_points (history : Q -> OutputBuffer)
    (start : Q) (evals : list Q) (p : pystr -> bool) (timeout : Q) :
  let deadline := (start + timeout)%Q in
  let before k :=
    forall j earlier, (j < k)%nat -> evals !! j = Some earlier ->
      p (_decode_locked (history earlier)) = false /\ (earlier < deadline)%Q in
  (wait_until history start evals p timeout = Some true
   <-> exists k now,
         evals !! k = Some now
         /\ p (_decode_locked (history now)) = true
         /\ before k)
  /\ (wait_until history start evals p timeout = Some false
      <-> exists k now,
            evals !! k = Some now
            /\ p (_decode_locked (history now)) = false
            /\ (deadline <= now)%Q
            /\ before k)
  /\ (forall b, (forall now, history now = b) ->
        (p (_decode_locked b) = true -> evals <> [] ->
           wait_until history start evals p timeout = Some true)
        /\ (p (_decode_locked b) = false ->
            (exists now, now ∈ evals /\ (deadline <= now)%Q) ->
            wait_until history start evals p timeout = Some false)).
Proof.
  intros deadline before. unfold wait_until. fold deadline.
  split; [apply wait_loop_true|].
  split; [apply wait_loop_false|].
  intros b Hb. split.
  - apply wait_loop_static_true. exact Hb.
  - apply wait_loop_static_false. exact Hb.
Qed.

(** A buffer that never holds more than [a], waited on for [a]: true at
    once; and waited on for ten seconds with a predicate that fails:
    false at the pass that reads the clock at the deadline. *)
Lemma wait_until_evaluation_points_witness :
  wait_until (fun _ => {| _buffer := bytes_lit [97]%N |}) 0 [0; 4]%Q is_a 10
  = Some true
  /\ wait_until (fun _ => {| _buffer := bytes_lit [97]%N |}) 0 [0; 4; 10]%Q
       (fun _ => false) 10
     = Some false.
Proof.
  split.
  - refine (proj1 (proj2 (proj2 (wait_until_evaluation_points
              (fun _ => {| _buffer := bytes_lit [97]%N |}) 0 [0; 4]%Q is_a 10))
              _ (fun _ => eq_refl)) _ _).
    + vm_compute. reflexivity.
    + discriminate.
  - refine (proj2 (proj2 (proj2 (wait_until_evaluation_points
              (fun _ => {| _buffer := bytes_lit [97]%N |}) 0 [0; 4; 10]%Q
              (fun _ => false) 10))
              _ (fun _ => eq_refl)) _ _).
    + reflexivity.
    + exists 10%Q. split.
      * apply list_elem_of_In. simpl. auto.
      * vm_compute. discriminate.
Defined.

(** C6, counterexample. The pump appends [a] when the clock reads 1 and
    [b] when it reads 2, before the waiting thread, woken at 3, gets
    the lock: the predicate, true of [a] alone, held at a moment within
    the timeout, and the call returns false. *)
Lemma wait_until_misses_moment :
  ~ true_iff_some_moment a_then_ab 0 [0; 3; 10]%Q is_a 10.
Proof.
  intros [_ H].
  assert (Hmoment : exists moment : Q,
             (0 <= moment)%Q /\ (moment <= 0 + 10)%Q
             /\ is_a (_decode_locked (a_then_ab moment)) = true).
  { exists 1%Q. repeat split; vm_compute; try discriminate. }
  apply H in Hmoment. vm_compute in Hmoment. discriminate.
Qed.

(** ** Script driver: expectations that time out *)

Lemma slice_last_spec {A} (k : nat) (s : list A) :
  length (slice_last k s) = Nat.min k (length s)
  /\ exists front, s = front ++ slice_last k s.
Proof.
  unfold slice_last. split.
  - rewrite length_drop. lia.
  - exists (take (length s - k) s). symmetry. apply take_drop.
Qed.

Lemma buffer_tail_spec (b : OutputBuffer) :
  (length (buffer_tail b) <= 200)%nat
  /\ (exists front, as_text b = front ++ buffer_tail b)
  /\ ((length (as_text b) <= 200)%nat -> buffer_tail b = as_text b).
Proof.
  unfold buffer_tail.
  destruct (slice_last_spec 200 (as_text b)) as [Hlen Hsuffix].
  split; [lia|]. split; [exact Hsuffix|].
  intros Hshort. unfold slice_last.
  replace (length (as_text b) - 200)%nat with O by lia. reflexivity.
Qed.

(** C8 (as the code has it). When the condition of a [WaitStep], or the
    [expect] of an [InputStep] whose payload was written, is not met
    within its timeout (five seconds for an [InputStep] that gives
    none), the step raises [TimeoutError] with a message made of the
    [repr] of the expectation and of the tail of the decoded buffer:
    its last 200 characters, or all of it when it has fewer. *)
Theorem timeout_error_carries_tail {rt : PyRuntime} (env : step_env) :
  let tail := buffer_tail (history env (read_back env)) in
  (forall step : WaitStep,
      wait_until (history env) (wait_start env) (evals env)
                 (matches (condition step)) (timeout step) = Some false ->
      _run_wait_step step env
      = Some (inl (TimeoutError
                     (py "Wait step timed out. "
                      ++ py "Expectation: "
                      ++ OutputCondition_repr (condition step)
                      ++ py ", buffer tail: " ++ tail))))
  /\ (forall (step : InputStep) (s : session) payload cond,
        utf8.encode (script.payload step) = Some payload ->
        expect step = Some cond ->
        wait_until (history env) (wait_start env) (evals env) (matches cond)
                   (match expect_timeout step with
                    | Some t => t
                    | None => 5%Q
                    end) = Some false ->
        _run_input_step step env s
        = Some (inl (TimeoutError
                       (py "Condition not met for input step. "
                        ++ py "Expectation: "
                        ++ OutputCondition_repr cond
                        ++ py ", buffer tail: " ++ tail))))
  /\ (length tail <= 200)%nat
  /\ (exists front, as_text (history env (read_back env)) = front ++ tail)
  /\ ((length (as_text (history env (read_back env))) <= 200)%nat ->
      tail = as_text (history env (read_back env))).
Proof.
  intros tail. split; [|split; [|apply buffer_tail_spec]].
  - intros step Hwait. unfold _run_wait_step. rewrite Hwait. reflexivity.
  - intros step s payload cond Hpayload Hexpect Hwait.
    unfold _run_input_step. rewrite Hpayload, Hexpect, Hwait. reflexivity.
Qed.

(** A wait for [ready] on a buffer that only ever holds [no], given up
    after two seconds. *)
Lemma timeout_error_carries_tail_witness :
  let cond := {| contains := Some (py "ready"); regex := None;
                 predicate := None |} in
  let env := {| history := fun _ => {| _buffer := bytes_lit [110; 111]%N |};
                wait_start := 0; evals := [0; 1; 2]%Q; read_back := 2;
                mark_offset := 2; mark_time := 0 |} in
  _run_wait_step (rt := LiteralRuntime)
    {| condition := cond; timeout := 2 |} env
  = Some (inl (TimeoutError
                 (py "Wait step timed out. "
                  ++ py "Expectation: "
                  ++ OutputCondition_repr (rt := LiteralRuntime) cond
                  ++ py ", buffer tail: " ++ py "no"))).
Proof.
  intros cond env.
  refine (proj1 (timeout_error_carries_tail (rt := LiteralRuntime) env)
            {| condition := cond; timeout := 2 |} _).
  vm_compute. reflexivity.
Defined.

(** C8, counterexample. A buffer of 201 two-byte characters: the tail
    in the message has 200 characters, which take 400 bytes. *)
Lemma buffer_tail_exceeds_200_bytes :
  ~ tail_within_200_bytes
      {| _buffer := bytes_lit (concat (replicate 201 [195; 169]%N)) |}.
Proof.
  intros (bs & Hencode & Hlen).
  vm_compute in Hencode. injection Hencode as <-.
  simpl in Hlen. lia.
Qed.

(** ** Output conditions *)

Section conditions.
Context {rt : PyRuntime}.

Lemma py_in_empty (text : pystr) : py_in [] text = true.
Proof using Type. destruct text; reflexivity. Qed.

Lemma string_field_spec (test : pystr -> bool) (field : option pystr) :
  match field with
  | Some ((_ :: _) as value) => test value
  | _ => false
  end = true
  <-> exists value, field = Some value /\ value <> [] /\ test value = true.
Proof using Type.
  destruct field as [[|c value]|].
  - split; [discriminate | intros (v & [= <-] & Hne & _); contradiction].
  - split.
    + intros H. exists (c :: value). auto.
    + intros (v & [= <-] & _ & H). exact H.
  - split; [discriminate | intros (v & [=] & _)].
Qed.

(** [matches] is the disjunction of the fields that are present and
    not empty. *)
Lemma matches_spec (self : OutputCondition) (text : pystr) :
  matches self text = true
  <-> (exists c, contains self = Some c /\ c <> [] /\ py_in c text = true)
      \/ (exists r, regex self = Some r /\ r <> [] /\ re_search r text = true)
      \/ (exists f, predicate self = Some f /\ f text = true).
Proof using Type.
  rewrite <- (string_field_spec (fun c => py_in c text)),
          <- (string_field_spec (fun r => re_search r text)).
  unfold matches.
  destruct (match contains self with
            | Some ((_ :: _) as needle) => py_in needle text
            | _ => false
            end);
    [tauto|].
  destruct (match regex self with
            | Some ((_ :: _) as pattern) => re_search pattern text
            | _ => false
            end);
    [tauto|].
  destruct (predicate self) as [f|].
  - destruct (f text) eqn:Hf.
    + split; [eauto | reflexivity].
    + split; [discriminate|].
      intros [H | [H | (f' & [= <-] & H)]]; congruence.
  - split; [discriminate|].
    intros [H | [H | (f' & H & _)]]; discriminate.
Qed.

(** Construction fails without any field and with a pattern that does
    not compile, and succeeds otherwise. *)
Lemma OutputCondition_new_spec (c r : option pystr)
    (f : option (pystr -> bool)) :
  match OutputCondition_new c r f with
  | inl (ValueError _) => c = None /\ r = None /\ f = None
  | inl _ => exists pattern, r = Some pattern /\ re_compiles pattern = false
  | inr self =>
    self = {| contains := c; regex := r; predicate := f |}
    /\ (c <> None \/ r <> None \/ f <> None)
    /\ (forall pattern, r = Some pattern -> re_compiles pattern = true)
  end.
Proof using Type.
  unfold OutputCondition_new.
  destruct c as [c|], r as [pattern|], f as [f|];
    try destruct (re_compiles pattern) eqn:Hre;
    repeat split; eauto; try (intros ? [= <-]; assumption);
    try discriminate; try (left; discriminate);
    try (right; left; discriminate); try (right; right; discriminate).
Qed.

(** C9, the failing input. A condition built with the empty string as
    [contains] is accepted by the constructor, the empty string occurs
    in every text, and [matches] is false of every text. *)
Theorem matches_skips_empty_contains (text : pystr) :
  exists self,
    OutputCondition_new (Some []) None None = inr self
    /\ py_in [] text = true
    /\ matches self text = false.
Proof using Type.
  eexists. split; [reflexivity|]. split; [apply py_in_empty | reflexivity].
Qed.
End conditions.

(** * Further properties of the code *)

Import dsl props.

(** ** Recorder and registry over any run of calls *)

Lemma ascending_snoc (l : list Z) (x : Z) :
  ascending l -> Forall (fun y => y <= x) l -> ascending (l ++ [x]).
Proof.
  intros Hl Hall i j a b Hij Ha Hb.
  destruct (decide (j < length l)%nat) as [Hj|Hj].
  - rewrite lookup_app_l in Ha by lia. rewrite lookup_app_l in Hb by lia.
    exact (Hl i j a b Hij Ha Hb).
  - assert (b = x) as ->.
    { rewrite lookup_app_r in Hb by lia.
      destruct (j - length l)%nat as [|n]; simpl in Hb; [congruence|].
      destruct n; discriminate. }
    destruct (decide (i < length l)%nat) as [Hi|Hi].
    + rewrite lookup_app_l in Ha by lia.
      rewrite Forall_forall in Hall. apply Hall.
      eapply list_elem_of_lookup_2. exact Ha.
    + rewrite lookup_app_r in Ha by lia.
      destruct (i - length l)%nat as [|n]; simpl in Ha;
        [injection Ha as <-; lia|]. destruct n; discriminate.
Qed.

Local Arguments calls : simpl never.

Lemma calls_cons (c : recording_call) (cs : list recording_call)
    (st : AnsiStreamRecorder * KeyframeRegistry) :
  calls (c :: cs) st = calls cs (call c st).
Proof. reflexivity. Qed.

Lemma append_closed (r : AnsiStreamRecorder) (chunk : pybytes) :
  closed (_file r) = true ->
  append r chunk
  = (match chunk with
     | [] => inr (_offset r)
     | _ :: _ => inl (ValueError (py "write to closed file"))
     end, r).
Proof.
  intros Hclosed. destruct chunk as [|b chunk]; [reflexivity|].
  unfold append, file_write. rewrite Hclosed. reflexivity.
Qed.

Lemma calls_closed (cs : list recording_call) (r : AnsiStreamRecorder)
    (reg : KeyframeRegistry) :
  closed (_file r) = true -> fst (calls cs (r, reg)) = r.
Proof.
  revert reg. induction cs as [|c cs IH]; intros reg Hclosed; [reflexivity|].
  rewrite calls_cons. destruct c as [chunk|l now|]; simpl.
  - rewrite (append_closed r chunk Hclosed). simpl. apply IH, Hclosed.
  - apply IH, Hclosed.
  - unfold close. rewrite Hclosed. apply IH, Hclosed.
Qed.

Lemma calls_open (cs : list recording_call) (r : AnsiStreamRecorder)
    (reg : KeyframeRegistry) :
  closed (_file r) = false ->
  let r' := fst (calls cs (r, reg)) in
  contents r' = contents r ++ accepted cs
  /\ _offset r' = _offset r + len (accepted cs)
  /\ (closed (_file r') = true -> pending (_file r') = []).
Proof.
  cbv zeta. revert r reg. induction cs as [|c cs IH]; intros r reg Hopen.
  - simpl. rewrite app_nil_r. unfold len. simpl.
    split; [reflexivity|]. split; [lia | congruence].
  - rewrite calls_cons. destruct c as [chunk|l now|]; simpl.
    + rewrite (append_open r chunk Hopen). simpl.
      edestruct (IH {| _file := {| on_disk := on_disk (_file r);
                                  pending := pending (_file r) ++ chunk;
                                  closed := false |};
                      _offset := _offset r + len chunk |} reg eq_refl)
        as (Hc & Ho & Hp).
      split; [|split; [|exact Hp]].
      * rewrite Hc. unfold contents. simpl. rewrite <- !app_assoc. reflexivity.
      * rewrite Ho. simpl. rewrite len_app. lia.
    + apply IH, Hopen.
    + unfold close. rewrite Hopen.
      rewrite calls_closed by reflexivity. unfold contents, len. simpl.
      rewrite !app_nil_r. split; [reflexivity|]. split; [lia | reflexivity].
Qed.

(** X1. For any run of [append], [mark] and [close] calls on a fresh
    recorder, the recorder holds the chunks appended before the first
    [close], in call order, its offset is their total length, and the
    file holds them once the recorder is closed; on a closed recorder a
    non-empty [append] raises [ValueError] and changes nothing, while an
    empty one still returns the offset. *)
Theorem recorder_lifecycle (cs : list recording_call) :
  let r := fst (calls cs (recording.new, KeyframeRegistry_new)) in
  contents r = accepted cs
  /\ _offset r = len (accepted cs)
  /\ persisted r = accepted cs
  /\ (closed (_file r) = true ->
      forall chunk,
        append r chunk
        = (match chunk with
           | [] => inr (len (accepted cs))
           | _ :: _ => inl (ValueError (py "write to closed file"))
           end, r)).
Proof.
  intros r.
  destruct (calls_open cs recording.new KeyframeRegistry_new eq_refl)
    as (Hc & Ho & Hp).
  fold r in Hc, Ho, Hp. simpl in Hc, Ho.
  split; [exact Hc|]. split; [exact Ho|]. split.
  - unfold persisted, close. rewrite <- Hc. unfold contents.
    destruct (closed (_file r)) eqn:Hclosed.
    + rewrite (Hp eq_refl), app_nil_r. reflexivity.
    + simpl. apply app_nil_r.
  - intros Hclosed chunk. rewrite (append_closed r chunk Hclosed), Ho.
    reflexivity.
Qed.

Lemma call_offset_grows (c : recording_call)
    (st : AnsiStreamRecorder * KeyframeRegistry) :
  _offset (fst st) <= _offset (fst (call c st)).
Proof.
  destruct st as [r reg]. destruct c as [chunk|l now|]; simpl; [| lia |].
  - destruct (closed (_file r)) eqn:Hclosed.
    + rewrite (append_closed r chunk Hclosed). simpl. lia.
    + rewrite (append_open r chunk Hclosed). simpl.
      pose proof (len_nonneg chunk). lia.
  - unfold close. destruct (closed (_file r)); simpl; lia.
Qed.

Lemma call_records (c : recording_call)
    (st : AnsiStreamRecorder * KeyframeRegistry) :
  _records (snd (call c st))
  = _records (snd st)
    ++ match c with
       | CallMark l now =>
         [ {| label := l; offset := _offset (fst st); timestamp := now |} ]
       | _ => []
       end.
Proof.
  destruct st as [r reg]. destruct c; simpl; rewrite ?app_nil_r; reflexivity.
Qed.

Lemma calls_records_grow (cs : list recording_call)
    (st : AnsiStreamRecorder * KeyframeRegistry) (f : Keyframe) :
  f ∈ _records (snd st) -> f ∈ _records (snd (calls cs st)).
Proof.
  revert st. induction cs as [|c cs IH]; intros st Hin; [exact Hin|].
  rewrite calls_cons. apply IH.
  rewrite call_records. apply elem_of_app. left. exact Hin.
Qed.

Lemma calls_app (cs1 cs2 : list recording_call)
    (st : AnsiStreamRecorder * KeyframeRegistry) :
  calls (cs1 ++ cs2) st = calls cs2 (calls cs1 st).
Proof. unfold calls. apply foldl_app. Qed.

Lemma calls_keep_order (cs : list recording_call)
    (st : AnsiStreamRecorder * KeyframeRegistry) :
  ascending (map offset (_records (snd st))) ->
  Forall (fun f => 0 <= offset f <= _offset (fst st)) (_records (snd st)) ->
  0 <= _offset (fst st) ->
  let st' := calls cs st in
  ascending (map offset (_records (snd st')))
  /\ Forall (fun f => 0 <= offset f <= _offset (fst st')) (_records (snd st'))
  /\ map label (_records (snd st'))
     = map label (_records (snd st)) ++ marked cs.
Proof.
  revert st. induction cs as [|c cs IH]; intros st Hasc Hall Hpos.
  - simpl. rewrite app_nil_r. auto.
  - rewrite calls_cons.
    pose proof (call_offset_grows c st) as Hgrow.
    destruct (IH (call c st)) as (Hasc' & Hall' & Hlabels).
    + rewrite call_records, map_app. destruct c as [chunk|l now|]; simpl;
        rewrite ?app_nil_r; try exact Hasc.
      apply ascending_snoc; [exact Hasc|].
      apply Forall_forall. intros y Hy.
      apply list_elem_of_fmap in Hy. destruct Hy as (f & -> & Hf).
      pose proof (proj1 (Forall_forall _ _) Hall f Hf) as Hb. simpl in Hb. lia.
    + rewrite call_records. apply Forall_app. split.
      * eapply Forall_impl; [exact Hall|]. simpl. intros f Hf. lia.
      * destruct c as [chunk|l now|]; constructor; simpl; [|constructor].
        destruct st as [r reg]. simpl in *. lia.
    + lia.
    + split; [exact Hasc'|]. split; [exact Hall'|].
      rewrite Hlabels, call_records, map_app, <- app_assoc.
      destruct c; reflexivity.
Qed.

(** X2. For any run of [append], [mark] and [close] calls on a fresh
    recorder and its registry, the registry holds one keyframe for each
    [mark] call, in call order; the offset of each is the number of
    bytes the recorder had accepted when the mark was made, so the
    offsets never decrease along the records and none exceeds the
    final offset of the recorder. *)
Theorem marks_follow_recorder (cs : list recording_call) :
  let st := calls cs (recording.new, KeyframeRegistry_new) in
  map label (_records (snd st)) = marked cs
  /\ ascending (map offset (_records (snd st)))
  /\ Forall (fun f => 0 <= offset f <= _offset (fst st)) (_records (snd st))
  /\ forall before l now after,
       cs = before ++ CallMark l now :: after ->
       {| label := l; offset := len (accepted before); timestamp := now |}
       ∈ _records (snd st).
Proof.
  intros st.
  destruct (calls_keep_order cs (recording.new, KeyframeRegistry_new))
    as (Hasc & Hall & Hlabels); simpl; auto using ascending_nil; [lia|].
  fold st in Hasc, Hall, Hlabels.
  split; [exact Hlabels|]. split; [exact Hasc|]. split; [exact Hall|].
  intros before l now after ->. unfold st.
  rewrite calls_app, calls_cons.
  apply calls_records_grow. rewrite call_records. apply elem_of_app. right.
  destruct (calls_open before recording.new KeyframeRegistry_new eq_refl)
    as (_ & Ho & _). simpl in Ho. rewrite Ho. apply list_elem_of_In. left.
  reflexivity.
Qed.

(** ** Output pump *)

Lemma forward_in_step (st : pump_state) (chunk : pybytes) :
  in_step st ->
  exists st1 st2,
    forward st chunk = inr (st1, st2)
    /\ never_ahead st1 /\ never_ahead st2 /\ in_step st2
    /\ _buffer (pump_buffer st2) = _buffer (pump_buffer st) ++ chunk.
Proof.
  intros (Hbuf & Hoff & Hopen). unfold forward.
  rewrite (append_open _ chunk Hopen).
  eexists _, _. split; [reflexivity|].
  assert (Happ : _buffer (buffer_append (pump_buffer st) chunk)
                 = _buffer (pump_buffer st) ++ chunk).
  { destruct chunk; simpl; [rewrite app_nil_r|]; reflexivity. }
  unfold never_ahead, in_step, contents in *. simpl. rewrite Happ, Hbuf.
  rewrite !len_app, <- !app_assoc. pose proof (len_nonneg chunk).
  repeat split; try reflexivity; try (rewrite ?Hoff, ?len_app; lia).
  rewrite app_assoc. apply prefix_app_r. reflexivity.
Qed.

Lemma last_state_cons2 (st st1 st2 : pump_state) (trace : list pump_state) :
  last_state st (st1 :: st2 :: trace) = last_state st2 trace.
Proof.
  unfold last_state. change (st1 :: st2 :: trace) with ([st1] ++ st2 :: trace).
  rewrite last_app. simpl. rewrite last_cons. destruct (last trace); reflexivity.
Qed.

Section pump_facts.






End pump_facts.



Lemma drain_until_quiet (data : list pump_tick) (quiet : pump_tick)
    (rest : list pump_tick) : forall st,
  in_step st ->
  Forall reads_data data ->
  ~ reads_data quiet ->
  exists trace,
    drain (data ++ quiet :: rest) st = (trace, PumpDone)
    /\ in_step (last_state st trace)
    /\ _buffer (pump_buffer (last_state st trace))
       = _buffer (pump_buffer st) ++ concat (map tick_data data).
Proof.
  induction data as [|tick data IH]; intros st Hst Hdata Hquiet.
  - exists []. simpl. rewrite app_nil_r.
    destruct (read quiet) as [|[|b chunk]] eqn:Hread; auto.
    exfalso. apply Hquiet. exists b, chunk. exact Hread.
  - inversion Hdata as [|? ? (b & chunk & Hread) Hdata']; subst.
    destruct (forward_in_step st (b :: chunk) Hst)
      as (st1 & st2 & Hfwd & _ & _ & Hst2 & Hbuf).
    destruct (IH st2 Hst2 Hdata' Hquiet) as (trace & Hrun & Hlast & Hbuf').
    exists (st1 :: st2 :: trace). simpl. rewrite Hread, Hfwd, Hrun.
    rewrite last_state_cons2. split; [reflexivity|]. split; [exact Hlast|].
    rewrite Hbuf', Hbuf. unfold tick_data at 2. rewrite Hread, <- app_assoc.
    reflexivity.
Qed.

(** X4. A pump that finds its stop event set goes straight to the
    drain: it still forwards every chunk it can read, up to the first
    read that times out or returns nothing, and then returns; the
    buffer and the recorder then hold all these chunks. *)
Theorem pump_drains_after_stop (first : pump_tick)
    (data : list pump_tick) (quiet : pump_tick) (rest : list pump_tick)
    (st : pump_state) :
  in_step st ->
  head (data ++ quiet :: rest) = Some first ->
  stop_set first = true ->
  Forall reads_data data ->
  ~ reads_data quiet ->
  exists trace,
    OutputPump_run (data ++ quiet :: rest) st = (trace, PumpDone)
    /\ in_step (last_state st trace)
    /\ _buffer (pump_buffer (last_state st trace))
       = _buffer (pump_buffer st) ++ concat (map tick_data data).
Proof.
  intros Hst Hhead Hstop Hdata Hquiet.
  destruct (drain_until_quiet data quiet rest st Hst Hdata Hquiet)
    as (trace & Hrun & Hrest).
  exists trace. split; [|exact Hrest]. rewrite <- Hrun.
  destruct (data ++ quiet :: rest) as [|tick ticks]; [discriminate|].
  injection Hhead as ->. simpl. rewrite Hstop. reflexivity.
Qed.

(** The stop event is set while two chunks are still to be read. *)
Lemma pump_drains_after_stop_witness :
  let st := {| pump_recorder := recording.new;
               pump_buffer := OutputBuffer_new |} in
  let chunk c := {| stop_set := true; read := ReadData (bytes_lit c);
                    running := false |} in
  let quiet := {| stop_set := true; read := ReadTimeout; running := false |} in
  exists trace,
    OutputPump_run ([chunk [98; 121]%N; chunk [101]%N] ++ quiet :: []) st
    = (trace, PumpDone)
    /\ in_step (last_state st trace)
    /\ _buffer (pump_buffer (last_state st trace))
       = _buffer (pump_buffer st)
         ++ concat (map tick_data [chunk [98; 121]%N; chunk [101]%N]).
Proof.
  intros st chunk quiet.
  apply (pump_drains_after_stop (chunk [98; 121]%N)).
  - repeat split.
  - reflexivity.
  - reflexivity.
  - repeat constructor; eexists _, _; reflexivity.
  - intros (b & c & H). discriminate.
Defined.

(** ** Replay parser: where warnings are recorded *)

Lemma ascending_app (l1 l2 : list Z) :
  ascending l1 -> ascending l2 ->
  (forall x y, x ∈ l1 -> y ∈ l2 -> x <= y) ->
  ascending (l1 ++ l2).
Proof.
  intros H1 H2 H12 i j x y Hij Hx Hy.
  destruct (decide (j < length l1)%nat) as [Hj|Hj].
  - rewrite lookup_app_l in Hx by lia. rewrite lookup_app_l in Hy by lia.
    exact (H1 i j x y Hij Hx Hy).
  - rewrite lookup_app_r in Hy by lia.
    destruct (decide (i < length l1)%nat) as [Hi|Hi].
    + rewrite lookup_app_l in Hx by lia.
      apply H12; eapply list_elem_of_lookup_2; eauto.
    + rewrite lookup_app_r in Hx by lia.
      refine (H2 _ _ x y _ Hx Hy). lia.
Qed.

Lemma elem_of_entries_at (e : WarningEntry) (offset : Z)
    (warns : list ParseWarning) :
  e ∈ entries_at offset warns
  <-> warning e ∈ warns /\ entry_offset e = offset.
Proof.
  unfold entries_at. rewrite list_elem_of_fmap. split.
  - intros (w & -> & Hw). auto.
  - intros [Hw <-]. exists (warning e). destruct e. auto.
Qed.

Lemma ascending_entries_at (offset : Z) (warns : list ParseWarning) :
  ascending (map entry_offset (entries_at offset warns)).
Proof.
  intros i j x y _ Hx Hy.
  assert (Hall : forall k z,
             map entry_offset (entries_at offset warns) !! k = Some z ->
             z = offset).
  { intros k z Hz. apply list_elem_of_lookup_2, list_elem_of_fmap in Hz.
    destruct Hz as (e & -> & He). apply elem_of_entries_at in He. tauto. }
  rewrite (Hall i x Hx), (Hall j y Hy). lia.
Qed.

Section warning_facts.
Context {vt : VtEngine}.
Variable caps : TerminalCapabilities.

Lemma parse_loop_warnings (chunk_size : Z) :
  -1 <= chunk_size ->
  forall fuel st,
    (length (ps_handle st) < fuel)%nat ->
    let chunks := reads_from fuel chunk_size (ps_handle st) in
    exists st' new,
      parse_loop fuel caps chunk_size st = Some (inr st')
      /\ ps_collector st' = ps_collector st ++ new
      /\ (forall e, e ∈ new <->
            exists k chunk,
              chunks !! k = Some chunk
              /\ warning e ∈ snd (normalize caps chunk)
              /\ entry_offset e
                 = ps_consumed st + total_len (take k chunks))
      /\ ascending (map entry_offset new).
Proof using Type.
  intros Hn. induction fuel as [|fuel IH]; intros st Hfuel; [lia|].
  destruct (handle_read_split chunk_size (ps_handle st) Hn)
    as (raw & rest & Hread & Hsplit).
  cbv zeta. simpl. rewrite Hread. destruct raw as [|b raw].
  - exists st, []. rewrite app_nil_r.
    split; [reflexivity|]. split; [reflexivity|]. split; [|apply ascending_nil].
    intros e. split; [intros H; inversion H|].
    intros (k & chunk & Hk & _). destruct k; discriminate.
  - set (raw' := b :: raw) in *. rewrite parse_chunk_eq.
    match goal with
    | |- context [parse_loop fuel caps chunk_size ?s] => set (st1 := s)
    end.
    assert (Hlt : (length (ps_handle st1) < fuel)%nat).
    { simpl. rewrite Hsplit, length_app in Hfuel. unfold raw' in Hfuel.
      simpl in Hfuel. lia. }
    destruct (IH st1 Hlt) as (st' & new & Hrun & Hcoll & Hnew & Hasc).
    simpl in Hcoll, Hnew. set (chunks := reads_from fuel chunk_size rest) in *.
    exists st', (entries_at (ps_consumed st) (snd (normalize caps raw')) ++ new).
    split; [exact Hrun|]. split; [rewrite Hcoll, app_assoc; reflexivity|].
    split.
    + intros e. rewrite elem_of_app, elem_of_entries_at, Hnew. split.
      * intros [[Hw Ho] | (k & chunk & Hk & Hw & Ho)].
        -- exists O, raw'. simpl. split; [reflexivity|]. split; [exact Hw|]. lia.
        -- exists (S k), chunk. split; [exact Hk|]. split; [exact Hw|].
           rewrite Ho. simpl. lia.
      * intros ([|k] & chunk & Hk & Hw & Ho); simpl in Hk, Ho.
        -- injection Hk as <-. left. split; [exact Hw | lia].
        -- right. exists k, chunk. split; [exact Hk|]. split; [exact Hw|]. lia.
    + rewrite map_app. apply ascending_app;
        [apply ascending_entries_at | exact Hasc |].
      intros x y Hx Hy.
      apply list_elem_of_fmap in Hx. destruct Hx as (e1 & -> & He1).
      apply list_elem_of_fmap in Hy. destruct Hy as (e2 & -> & He2).
      apply elem_of_entries_at in He1. apply Hnew in He2.
      destruct He1 as [_ ->]. destruct He2 as (k & chunk & _ & _ & ->).
      pose proof (total_len_nonneg (take k chunks)).
      pose proof (len_nonneg raw'). lia.
Qed.
End warning_facts.



(** ** Normalizer: it only deletes *)

(** A pass whose replacement gives the match back or deletes it with a
    warning of [Q]. *)
Lemma sub_only_deletes (Q : ParseWarning -> Prop) pattern
    (repl : pystr -> list ParseWarning -> pystr * list ParseWarning) :
  (forall s m rest, pattern s = Some (m, rest) -> s = m ++ rest /\ m <> []) ->
  (forall m ws,
      repl m ws = (m, ws)
      \/ exists w, repl m ws = ([], ws ++ [w]) /\ Q w) ->
  forall text ws,
  exists out extra,
    sub pattern repl text ws = (out, ws ++ extra)
    /\ sublist out text
    /\ Forall Q extra
    /\ (extra = [] -> out = text)
    /\ (extra <> [] -> (length out < length text)%nat).
Proof.
  intros Hcons Hrepl text ws.
  destruct (sub_rel pattern repl Hcons
              (fun text ws out ws' =>
                 exists extra,
                   ws' = ws ++ extra /\ sublist out text /\ Forall Q extra
                   /\ (extra = [] -> out = text)
                   /\ (extra <> [] -> (length out < length text)%nat)))
    with (s := text) (st := ws)
    as (out & ws' & Hsub & extra & -> & Hrest).
  - intros st. exists []. rewrite app_nil_r.
    repeat split; auto. congruence.
  - intros s m rest st r st1 out st2 Hm Hr
      (extra & -> & Hsubl & HQ & Hsame & Hless).
    destruct (Hcons _ _ _ Hm) as [-> Hne].
    destruct (Hrepl m st) as [Hid | (w & Hdel & Hw)]; rewrite Hr in *.
    + injection Hid as -> ->. exists extra.
      split; [reflexivity|]. split; [apply sublist_app; [reflexivity|exact Hsubl]|].
      split; [exact HQ|]. split.
      * intros H. rewrite (Hsame H). reflexivity.
      * intros H. rewrite !length_app. specialize (Hless H). lia.
    + injection Hdel as -> ->. exists (w :: extra).
      split; [rewrite <- app_assoc; reflexivity|].
      split; [apply sublist_inserts_l; exact Hsubl|].
      split; [constructor; assumption|]. split; [discriminate|].
      intros _. simpl. rewrite length_app.
      pose proof (sublist_length _ _ Hsubl). destruct m; [contradiction|].
      simpl. lia.
  - intros c s st out st1 Hm (extra & -> & Hsubl & HQ & Hsame & Hless).
    exists extra. split; [reflexivity|].
    split; [apply sublist_skip; exact Hsubl|]. split; [exact HQ|]. split.
    + intros H. rewrite (Hsame H). reflexivity.
    + intros H. simpl. specialize (Hless H). lia.
  - exists out, extra. auto.
Qed.

(** X6. For all capabilities and every chunk, the text [normalize]
    returns is the decoded chunk with some characters deleted and none
    added or moved; it is the decoded chunk itself exactly when no
    warning is returned; and every warning is of kind dec-private with
    [supports_dec_private] false, or of kind osc-suppressed with
    [allow_osc] false, with an empty [normalized] and no message. *)
Theorem normalize_only_deletes (caps : TerminalCapabilities) (chunk : pybytes) :
  let text := fst (normalize caps chunk) in
  let warns := snd (normalize caps chunk) in
  sublist text (utf8.decode_ignore chunk)
  /\ (warns = [] <-> text = utf8.decode_ignore chunk)
  /\ Forall (fun w =>
               (kind w = py "dec-private" /\ supports_dec_private caps = false
                \/ kind w = py "osc-suppressed" /\ allow_osc caps = false)
               /\ normalized w = Some [] /\ message w = None)
            warns.
Proof.
  unfold normalize, normalize_text. cbv zeta.
  set (Qd := fun w => kind w = py "dec-private"
                      /\ supports_dec_private caps = false
                      /\ normalized w = Some [] /\ message w = None).
  set (Qo := fun w => kind w = py "osc-suppressed"
                      /\ allow_osc caps = false
                      /\ normalized w = Some [] /\ message w = None).
  destruct (sub_only_deletes Qd _DEC_PRIVATE_RE (_dec_repl caps)
              dec_re_consuming) with (text := utf8.decode_ignore chunk) (ws := @nil ParseWarning)
    as (mid & ws1 & Hdec & Hsub1 & HQ1 & Hsame1 & Hless1).
  { intros m ws. unfold _dec_repl.
    destruct (supports_dec_private caps) eqn:Hcap; [left; reflexivity|].
    right. eexists. split; [reflexivity|]. repeat split; auto. }
  destruct (sub_only_deletes Qo _OSC_RE (_osc_repl caps) osc_re_consuming)
    with (text := mid) (ws := [] ++ ws1)
    as (out & ws2 & Hosc & Hsub2 & HQ2 & Hsame2 & Hless2).
  { intros m ws. unfold _osc_repl.
    destruct (allow_osc caps) eqn:Hcap; [left; reflexivity|].
    right. eexists. split; [reflexivity|]. repeat split; auto. }
  rewrite Hdec, Hosc. simpl.
  split; [etransitivity; eassumption|]. split.
  - split.
    + intros H. apply app_eq_nil in H. destruct H as [-> ->].
      rewrite (Hsame2 eq_refl). apply Hsame1. reflexivity.
    + intros ->. pose proof (sublist_length _ _ Hsub1) as Hl1.
      pose proof (sublist_length _ _ Hsub2) as Hl2.
      destruct ws1 as [|w1 ws1]; [|specialize (Hless1 ltac:(discriminate)); lia].
      destruct ws2 as [|w2 ws2]; [reflexivity|].
      specialize (Hless2 ltac:(discriminate)). lia.
  - apply Forall_app. split.
    + eapply Forall_impl; [exact HQ1|]. intros w (? & ? & ? & ?). auto.
    + eapply Forall_impl; [exact HQ2|]. intros w (? & ? & ? & ?). auto.
Qed.

(** ** Escaping of the quoted sequences *)

Lemma slice_inner_quoted {A} (q1 q2 : A) (body : list A) :
  slice_inner ([q1] ++ body ++ [q2]) = body.
Proof.
  unfold slice_inner. rewrite !length_app. simpl length.
  replace (1 + (length body + 1) - 1)%nat with (length (q1 :: body)) by (simpl; lia).
  change ([q1] ++ body ++ [q2]) with ((q1 :: body) ++ [q2]).
  rewrite take_app_length. reflexivity.
Qed.

Lemma _repr_escape_flat (seq : pystr) :
  _repr_escape seq = flat_map json_escape_char seq.
Proof. apply slice_inner_quoted. Qed.

Lemma land_15_bound (n : N) : (N.land n 15 <= 15)%N.
Proof.
  change 15%N with (N.ones 4). rewrite N.land_ones.
  pose proof (N.mod_lt n (2 ^ 4)%N ltac:(discriminate)) as H.
  change (2 ^ 4)%N with 16%N in *. change (N.ones 4) with 15%N. lia.
Qed.

Lemma hex_digit_printable (d : N) : (d <= 15)%N -> printable (hex_digit d).
Proof.
  intros Hd. unfold hex_digit, printable.
  destruct (N.ltb_spec d 10); lia.
Qed.

Lemma u_escape_printable (n : N) : Forall printable (u_escape n).
Proof.
  unfold u_escape.
  repeat (apply Forall_cons; split;
          [first [ apply hex_digit_printable, land_15_bound
                 | unfold printable; lia ] |]).
  constructor.
Qed.

Ltac escape_cases c :=
  unfold json_escape_char;
  destruct (N.eqb_spec c 34); [|
  destruct (N.eqb_spec c 92); [|
  destruct (N.eqb_spec c 10); [|
  destruct (N.eqb_spec c 13); [|
  destruct (N.eqb_spec c 9); [|
  destruct (N.eqb_spec c 12); [|
  destruct (N.eqb_spec c 8); [|
  destruct (N.leb_spec 32 c); destruct (N.leb_spec c 126); simpl andb; [| | |];
  try destruct (N.ltb_spec c 65536)]]]]]]].

Lemma json_escape_char_printable (c : N) : Forall printable (json_escape_char c).
Proof.
  escape_cases c;
    first [ apply u_escape_printable
          | apply Forall_app; split; apply u_escape_printable
          | repeat (apply Forall_cons; split; [unfold printable; lia|]);
            apply Forall_nil_2 ].
Qed.

Lemma json_escape_char_plain (c : N) : plain c -> json_escape_char c = [c].
Proof.
  intros ((H1 & H2) & H3 & H4). escape_cases c; try reflexivity; lia.
Qed.

Lemma json_escape_char_long (c : N) :
  ~ plain c -> (2 <= length (json_escape_char c))%nat.
Proof.
  intros Hn. escape_cases c; try (simpl; lia);
    try (rewrite length_app; simpl; lia).
  exfalso. apply Hn. unfold plain, printable. lia.
Qed.

Lemma plain_dec (c : N) : plain c \/ ~ plain c.
Proof.
  unfold plain, printable.
  destruct (N.leb_spec 32 c); [|right; lia].
  destruct (N.leb_spec c 126); [|right; lia].
  destruct (N.eqb_spec c 34); [right; tauto|].
  destruct (N.eqb_spec c 92); [right; tauto|].
  left. auto.
Qed.

Lemma flat_map_escape_length (s : pystr) :
  (length s <= length (flat_map json_escape_char s))%nat.
Proof.
  induction s as [|c s IH]; simpl; [lia|]. rewrite length_app.
  destruct (plain_dec c) as [Hp|Hp].
  - rewrite (json_escape_char_plain c Hp). simpl. lia.
  - pose proof (json_escape_char_long c Hp). lia.
Qed.

(** X7. The text [_repr_escape] gives for a sequence, which the
    warnings quote, holds printable ASCII characters only and is never
    shorter than the sequence; it is the sequence itself exactly when
    every character of the sequence is printable ASCII other than the
    double quote and the backslash; and the escape of a concatenation
    is the concatenation of the escapes. *)
Theorem repr_escape_printable (seq : pystr) :
  Forall printable (_repr_escape seq)
  /\ (length seq <= length (_repr_escape seq))%nat
  /\ (_repr_escape seq = seq <-> Forall plain seq)
  /\ forall a b, _repr_escape (a ++ b) = _repr_escape a ++ _repr_escape b.
Proof.
  split; [|split; [|split]].
  - rewrite _repr_escape_flat. induction seq as [|c seq IH]; simpl; [constructor|].
    apply Forall_app. split; [apply json_escape_char_printable | exact IH].
  - rewrite _repr_escape_flat. apply flat_map_escape_length.
  - rewrite _repr_escape_flat. induction seq as [|c seq IH]; simpl.
    + split; [constructor | reflexivity].
    + destruct (plain_dec c) as [Hp|Hp].
      * rewrite (json_escape_char_plain c Hp). simpl. split.
        -- intros H. injection H as H. constructor; [exact Hp | apply IH, H].
        -- intros H. inversion H; subst. f_equal. apply IH. assumption.
      * split.
        -- intros H. exfalso. apply (f_equal (@length N)) in H.
           rewrite length_app in H. simpl in H.
           pose proof (json_escape_char_long c Hp).
           pose proof (flat_map_escape_length seq). lia.
        -- intros H. inversion H; subst. contradiction.
  - intros a b. rewrite !_repr_escape_flat. apply flat_map_app.
Qed.

(** ** Snapshots of the screen *)

Lemma concat_chars_length (row : list CellStyle) :
  Forall (fun c => char c <> []) row ->
  (length row <= length (concat (map char row)))%nat.
Proof.
  induction 1 as [|c row Hc _ IH]; simpl; [lia|].
  rewrite length_app. destruct (char c); [contradiction|]. simpl. lia.
Qed.

(** X8. A snapshot has one row of cells for each line of the screen
    and one cell in each row for each column, none for a count that is
    not positive; no cell has an empty character, a position at which
    the emulator holds no character gives the blank cell with the
    default colours, so that [text_lines] gives one text for each line
    of the screen, none shorter than the screen is wide. *)
Theorem snapshot_grid {vt : VtEngine} (screen : Screen) (offset : Z) :
  let st := _snapshot screen offset in
  let lines := Z.to_nat (screen_lines screen) in
  let columns := Z.to_nat (screen_columns screen) in
  state_offset st = offset
  /\ length (cells st) = lines
  /\ Forall (fun row => length row = columns) (cells st)
  /\ Forall (Forall (fun cell => char cell <> [])) (cells st)
  /\ (forall r c : nat,
        (r < lines)%nat -> (c < columns)%nat ->
        buffer_get screen (Z.of_nat r) (Z.of_nat c) = None ->
        exists row, cells st !! r = Some row /\ row !! c = Some blank_cell)
  /\ length (text_lines st) = lines
  /\ Forall (fun line => (columns <= length line)%nat) (text_lines st).
Proof.
  cbv zeta. unfold text_lines, _snapshot. cbn [cells state_offset].
  match goal with
  | |- context [map (fun row_idx => map (fun col_idx => @?f row_idx col_idx) _) _] =>
    set (cell := f)
  end.
  assert (Hrow : forall row_idx,
             Forall (fun c => char c <> [])
                    (map (cell row_idx) (seqZ 0 (screen_columns screen)))).
  { intros row_idx. apply Forall_fmap, Forall_forall. intros col_idx _.
    unfold cell. simpl.
    destruct (buffer_get screen row_idx col_idx) as [ch|]; simpl.
    - destruct (char_data ch) eqn:Hd; simpl; discriminate.
    - discriminate. }
  split; [reflexivity|].
  split; [rewrite length_map, length_seqZ; reflexivity|].
  split; [apply Forall_fmap, Forall_forall; intros row_idx _; simpl;
          rewrite length_map, length_seqZ; reflexivity|].
  split; [apply Forall_fmap, Forall_forall; intros row_idx _; apply Hrow|].
  split.
  { intros r c Hr Hc Hget. eexists. split.
    - rewrite list_lookup_fmap, lookup_seqZ_lt by lia. reflexivity.
    - rewrite list_lookup_fmap, lookup_seqZ_lt by lia. simpl. unfold cell.
      rewrite !Z.add_0_l, Hget. reflexivity. }
  split; [rewrite !length_map, length_seqZ; reflexivity|].
  rewrite <- list_fmap_compose. apply Forall_fmap, Forall_forall.
  intros row_idx _.
  pose proof (concat_chars_length _ (Hrow row_idx)) as Hlen.
  rewrite length_map, length_seqZ in Hlen. exact Hlen.
Qed.

(** ** Colours of the renderer *)

(** X9. For the palette of a renderer built with or without a palette
    of the user's, [_resolve_color] never fails: a name the user's
    palette has resolves to the user's colour, another name of the
    default palette to its default colour, and any other name to the
    colour of the name default, the user's if given. *)
Theorem resolve_color_falls_back
    (palette : option (gmap pystr pystr)) (name : pystr) :
  let user := match palette with Some p => p | None => ∅ end in
  _resolve_color (HtmlRenderer_palette palette) name
  = Some match user !! name with
         | Some colour => colour
         | None =>
           match _DEFAULT_PALETTE !! name with
           | Some colour => colour
           | None =>
             match user !! py "default" with
             | Some colour => colour
             | None => py "#d0d0d0"
             end
           end
         end.
Proof.
  cbv zeta. unfold _resolve_color, HtmlRenderer_palette.
  set (user := match palette with Some p => p | None => ∅ end).
  assert (Hdef : _DEFAULT_PALETTE !! py "default" = Some (py "#d0d0d0"))
    by (vm_compute; reflexivity).
  rewrite !lookup_union. rewrite Hdef.
  generalize (_DEFAULT_PALETTE !! name) (user !! name) (user !! py "default").
  intros [c'|] [c|] [d|]; reflexivity.
Qed.

(** ** Replay: keyframes in recording order *)







(** ** Output buffer: when the wait ends *)

(** X11. With a timeout that is zero or negative, [wait_until]
    evaluates the predicate once, on the buffer as it is at its first
    pass, and returns what it found: true when the predicate holds,
    false otherwise, without waiting. *)
Theorem wait_until_zero_timeout (history : Q -> OutputBuffer)
    (start now : Q) (later : list Q) (p : pystr -> bool) (timeout : Q) :
  (timeout <= 0)%Q -> (start <= now)%Q ->
  wait_until history start (now :: later) p timeout
  = Some (p (_decode_locked (history now))).
Proof.
  intros Ht Hs. unfold wait_until. simpl.
  destruct (p (_decode_locked (history now))); [reflexivity|].
  assert (H : Qle_bool (start + timeout - now) 0 = true)
    by (apply Qle_bool_iff; lra).
  rewrite H. reflexivity.
Qed.

Lemma wait_until_zero_timeout_witness :
  wait_until a_then_ab 1 [1; 2]%Q is_a 0
  = Some (is_a (_decode_locked (a_then_ab 1))).
Proof.
  apply (wait_until_zero_timeout a_then_ab 1 1 [2]%Q is_a 0).
  - apply Qle_refl.
  - apply Qle_refl.
Defined.

Lemma wait_loop_by_deadline (p : pystr -> bool) (deadline : Q)
    (history : Q -> OutputBuffer) (evals : list Q) (late : Q) :
  late ∈ evals -> (deadline <= late)%Q ->
  exists found,
    wait_loop p deadline history evals = Some found
    /\ forall more, wait_loop p deadline history (evals ++ more) = Some found.
Proof.
  intros Hin Hlate.
  induction evals as [|now evals IH]; [inversion Hin|].
  simpl. destruct (p (_decode_locked (history now))).
  - exists true. auto.
  - destruct (Qle_bool (deadline - now) 0) eqn:Hd.
    + exists false. auto.
    + apply IH. apply elem_of_cons in Hin. destruct Hin as [-> | Hin]; [|exact Hin].
      exfalso. apply (expired_iff deadline) in Hlate. congruence.
Qed.

Lemma wait_loop_never (p : pystr -> bool) (deadline : Q)
    (history : Q -> OutputBuffer) (evals : list Q) :
  (forall text, p text = false) ->
  wait_loop p deadline history evals <> Some true.
Proof.
  intros Hp. induction evals as [|now evals IH]; simpl; [discriminate|].
  rewrite Hp. destruct (Qle_bool (deadline - now) 0); [discriminate | exact IH].
Qed.

(** X12. [wait_until] returns at the latest in the first pass whose
    clock reading is at or after the deadline: when one of its passes
    reads the clock there, the call returns, and what it returns does
    not depend on the passes that would have followed. *)
Theorem wait_until_returns_by_deadline (history : Q -> OutputBuffer)
    (start : Q) (evals : list Q) (p : pystr -> bool) (timeout late : Q) :
  late ∈ evals -> (start + timeout <= late)%Q ->
  exists found,
    wait_until history start evals p timeout = Some found
    /\ forall more,
         wait_until history start (evals ++ more) p timeout = Some found.
Proof.
  intros Hin Hlate. unfold wait_until.
  exact (wait_loop_by_deadline p _ history evals late Hin Hlate).
Qed.

Lemma wait_until_returns_by_deadline_witness :
  exists found,
    wait_until a_then_ab 0 [1; 3]%Q is_a 2 = Some found
    /\ forall more,
         wait_until a_then_ab 0 ([1; 3]%Q ++ more) is_a 2 = Some found.
Proof.
  apply (wait_until_returns_by_deadline a_then_ab 0 [1; 3]%Q is_a 2 3).
  - apply elem_of_cons. right. apply elem_of_cons. left. reflexivity.
  - vm_compute. discriminate.
Defined.

(** ** Planner: from scenario steps to driver steps *)

Section planning.
Context {rt : PyRuntime}.

Lemma well_formed_dec (e : Expectation) : well_formed e \/ ~ well_formed e.
Proof using Type.
  unfold well_formed.
  destruct (exp_regex e) as [pattern|] eqn:Hr.
  - destruct (re_compiles pattern) eqn:Hc.
    + left. split; [right; discriminate|]. intros q [= <-]. exact Hc.
    + right. intros [_ H]. specialize (H pattern eq_refl). congruence.
  - destruct (exp_contains e) as [c|] eqn:Hc.
    + left. split; [left; discriminate|]. intros q [=].
    + right. intros [[H|H] _]; apply H; reflexivity.
Qed.

Lemma plannable_dec (step : ScenarioStep) : plannable step \/ ~ plannable step.
Proof using Type.
  destruct step as [c|w|sn|r|k t]; simpl; auto using well_formed_dec.
  destruct (cmd_expect c); auto using well_formed_dec.
Qed.

Lemma _to_condition_spec (e : Expectation) :
  (well_formed e /\ _to_condition e = inr (condition_of e))
  \/ (~ well_formed e /\ exists err, _to_condition e = inl err).
Proof using Type.
  unfold _to_condition.
  pose proof (OutputCondition_new_spec (exp_contains e) (exp_regex e) None) as H.
  destruct (OutputCondition_new (exp_contains e) (exp_regex e) None)
    as [err|self].
  - right. split; [|eauto]. intros [Hfield Hre]. destruct err.
    + destruct H as (Hc & Hr & _). destruct Hfield; contradiction.
    + destruct H as (pattern & Hr & Hc). specialize (Hre pattern Hr). congruence.
    + destruct H as (pattern & Hr & Hc). specialize (Hre pattern Hr). congruence.
    + destruct H as (pattern & Hr & Hc). specialize (Hre pattern Hr). congruence.
    + destruct H as (pattern & Hr & Hc). specialize (Hre pattern Hr). congruence.
  - left. destruct H as (-> & Hfield & Hre). split; [|reflexivity].
    split; [|exact Hre].
    destruct Hfield as [H | [H | H]]; [left; exact H | right; exact H |].
    exfalso. apply H. reflexivity.
Qed.

(** One pass of the loop of [_plan_steps]. *)
Lemma plan_from_step (step : ScenarioStep) :
  (plannable step
   /\ exists out, plans_to step out
        /\ forall planned steps,
             plan_from planned (step :: steps)
             = plan_from (planned ++ [out]) steps)
  \/ (~ plannable step
      /\ exists e, forall planned steps,
           plan_from planned (step :: steps) = inl e).
Proof using Type.
  destruct step as [c|w|sn|r|k t]; simpl.
  - unfold _build_input_step. destruct (cmd_expect c) as [e|] eqn:He.
    + destruct (_to_condition_spec e) as [[Hwf Hc] | [Hwf (err & Hc)]];
        rewrite Hc.
      * left. split; [exact Hwf|]. eexists. split; [|reflexivity].
        simpl. repeat split; reflexivity.
      * right. split; [exact Hwf|]. eexists. reflexivity.
    + left. split; [exact I|]. eexists. split; [|reflexivity].
      simpl. repeat split; reflexivity.
  - unfold _build_wait_step.
    destruct (_to_condition_spec (wait_expect w)) as [[Hwf Hc] | [Hwf (err & Hc)]];
      rewrite Hc.
    + left. split; [exact Hwf|]. eexists. split; [|reflexivity].
      simpl. split; reflexivity.
    + right. split; [exact Hwf|]. eexists. reflexivity.
  - left. split; [exact I|]. eexists. split; [|reflexivity]. reflexivity.
  - left. split; [exact I|]. eexists. split; [|reflexivity].
    simpl. split; reflexivity.
  - right. split; [tauto|]. eexists. reflexivity.
Qed.

Lemma plan_from_plannable (steps : list ScenarioStep) (planned : list Step) :
  Forall plannable steps ->
  exists new,
    plan_from planned steps = inr (planned ++ new)
    /\ Forall2 plans_to steps new.
Proof using Type.
  intros Hall. revert planned.
  induction Hall as [|step steps Hstep _ IH]; intros planned.
  - exists []. rewrite app_nil_r. split; [reflexivity | constructor].
  - destruct (plan_from_step step) as [(_ & out & Hout & Heq) | [Hn _]];
      [|contradiction].
    rewrite Heq. destruct (IH (planned ++ [out])) as (new & Hrun & Hnew).
    exists (out :: new). rewrite Hrun, <- app_assoc.
    split; [reflexivity | constructor; assumption].
Qed.

Lemma plan_from_inr (steps : list ScenarioStep) (planned out : list Step) :
  plan_from planned steps = inr out -> Forall plannable steps.
Proof using Type.
  revert planned. induction steps as [|step steps IH]; intros planned Hrun.
  - constructor.
  - destruct (plan_from_step step) as [(Hp & o & _ & Heq) | (_ & e & Heq)].
    + rewrite Heq in Hrun. constructor; [exact Hp | exact (IH _ Hrun)].
    + rewrite Heq in Hrun. discriminate.
Qed.

Lemma plan_from_first_error (good : list ScenarioStep) (bad : ScenarioStep)
    (rest : list ScenarioStep) (planned : list Step) :
  Forall plannable good -> ~ plannable bad ->
  exists e,
    plan_from planned (good ++ bad :: rest) = inl e
    /\ plan_from [] [bad] = inl e.
Proof using Type.
  intros Hgood Hbad. revert planned.
  induction Hgood as [|step good Hstep _ IH]; intros planned; simpl app.
  - destruct (plan_from_step bad) as [[Hp _] | (_ & e & Heq)]; [contradiction|].
    exists e. rewrite !Heq. auto.
  - destruct (plan_from_step step) as [(_ & out & _ & Heq) | [Hn _]];
      [|contradiction].
    rewrite Heq. apply IH.
Qed.

(** X13. [_plan_steps] returns a plan exactly when every step of the
    scenario can be planned, that is when it is of one of the four
    kinds and its expectation, if it has one, has a field and a
    pattern that compiles. The plan then has one driver step for each
    scenario step, in order: an input step with the fields of the
    command, a wait step with the condition and timeout of the wait, a
    mark with the label of the snapshot, a resize with the rows and
    columns. Otherwise it raises what the first step that cannot be
    planned raises alone, and returns no plan. *)
Theorem plan_steps_spec (steps : list ScenarioStep) :
  ((exists planned, _plan_steps steps = inr planned)
   <-> Forall plannable steps)
  /\ (forall planned,
        _plan_steps steps = inr planned -> Forall2 plans_to steps planned)
  /\ (forall good bad rest,
        steps = good ++ bad :: rest ->
        Forall plannable good -> ~ plannable bad ->
        exists e, _plan_steps steps = inl e /\ _plan_steps [bad] = inl e).
Proof using Type.
  unfold _plan_steps. split; [split|split].
  - intros (planned & Hrun). exact (plan_from_inr steps [] planned Hrun).
  - intros Hall. destruct (plan_from_plannable steps [] Hall) as (new & Hrun & _).
    eauto.
  - intros planned Hrun.
    destruct (plan_from_plannable steps [] (plan_from_inr steps [] planned Hrun))
      as (new & Hrun' & Hnew).
    rewrite Hrun in Hrun'. injection Hrun' as ->. exact Hnew.
  - intros good bad rest -> Hgood Hbad.
    exact (plan_from_first_error good bad rest [] Hgood Hbad).
Qed.

Lemma hollow_never_matches (e : Expectation) (text : pystr) :
  hollow e -> matches (condition_of e) text = false.
Proof using Type.
  intros [[Hc|Hc] [Hr|Hr]]; unfold matches, condition_of; simpl;
    rewrite Hc, Hr; reflexivity.
Qed.

(** X14. A wait of a scenario whose expectation has only empty texts
    (an empty [contains], an empty [regex], or both) is planned
    without error, yet the wait step planned for it can only time out:
    its condition matches no text, the step never succeeds, and it
    raises [TimeoutError] as soon as a pass of its wait reads the
    clock at or after the deadline. *)
Theorem hollow_expectation_never_met (w : WaitStepDef) (env : step_env) :
  well_formed (wait_expect w) -> hollow (wait_expect w) ->
  exists ws,
    _plan_steps [Wait w] = inr [StepWait ws]
    /\ (forall text, matches (condition ws) text = false)
    /\ _run_wait_step ws env <> Some (inr tt)
    /\ ((exists late, late ∈ evals env
                      /\ (wait_start env + wait_timeout w <= late)%Q) ->
        exists msg, _run_wait_step ws env = Some (inl (TimeoutError msg))).
Proof using Type.
  intros Hwf Hhollow.
  exists {| condition := condition_of (wait_expect w);
            timeout := wait_timeout w |}.
  assert (Hnever : forall text,
             matches (condition_of (wait_expect w)) text = false)
    by (intros text; apply hollow_never_matches; exact Hhollow).
  split.
  { unfold _plan_steps. simpl. unfold _build_wait_step.
    destruct (_to_condition_spec (wait_expect w)) as [[_ Hc] | [Hn _]];
      [|contradiction].
    rewrite Hc. reflexivity. }
  split; [exact Hnever|].
  unfold _run_wait_step, wait_until. cbn [condition timeout].
  pose proof (wait_loop_never (matches (condition_of (wait_expect w)))
                (wait_start env + wait_timeout w) (history env) (evals env)
                Hnever) as Hloop.
  split.
  - destruct (wait_loop _ _ _ _) as [[|]|]; congruence.
  - intros (late & Hin & Hlate).
    destruct (wait_loop_by_deadline
                (matches (condition_of (wait_expect w)))
                (wait_start env + wait_timeout w) (history env) (evals env)
                late Hin Hlate) as (found & Hfound & _).
    rewrite Hfound in *. destruct found; [congruence|]. eauto.
Qed.

(** ** Driver: the loop over the steps *)

(** X15. Executing a list of steps is executing its first part and
    then, from the session this leaves, the rest with what the later
    steps meet; when a step of the first part raises, or is still
    waiting, the outcome is that of the first part and none of the
    later steps runs. *)
Theorem execute_steps_app (first rest : list Step) (envs : nat -> step_env)
    (st : run_state) :
  _execute_steps (first ++ rest) envs st
  = match _execute_steps first envs st with
    | Some (inr st') =>
      _execute_steps rest (fun i => envs (length first + i)%nat) st'
    | outcome => outcome
    end.
Proof using Type.
  revert envs st. induction first as [|step first IH]; intros envs st.
  - reflexivity.
  - simpl. destruct step as [i|w|l|size|t].
    + destruct (_run_input_step i (envs O) (run_session st)) as [[e|s]|];
        [reflexivity | apply IH | reflexivity].
    + destruct (_run_wait_step w (envs O)) as [[e|u]|];
        [reflexivity | apply IH | reflexivity].
    + apply IH.
    + destruct (resize size); [apply IH | reflexivity].
    + reflexivity.
Qed.

Lemma run_input_step_effects (step : InputStep) (env : step_env)
    (s s' : session) :
  _run_input_step step env s = Some (inr s') ->
  pty_input s' = pty_input s ++ line (payload step) (send_newline step)
  /\ map label (records s')
     = map label (records s)
       ++ match mark step with
          | Some ((_ :: _) as l) => [l]
          | _ => []
          end.
Proof using Type.
  unfold _run_input_step, line.
  destruct (utf8.encode (payload step)) as [bytes|]; [|discriminate].
  set (written := if send_newline step && negb (ends_with_newline bytes)
                  then bytes ++ [x0a] else bytes).
  assert (Hmark :
            forall s0 : session,
              pty_input match mark step with
                        | Some ((_ :: _) as l) => registry_mark env l s0
                        | _ => s0
                        end = pty_input s0
              /\ map label (records match mark step with
                                    | Some ((_ :: _) as l) =>
                                      registry_mark env l s0
                                    | _ => s0
                                    end)
                 = map label (records s0)
                   ++ match mark step with
                      | Some ((_ :: _) as l) => [l]
                      | _ => []
                      end).
  { intros s0. destruct (mark step) as [[|c l]|]; simpl;
      rewrite ?app_nil_r, ?map_app; auto. }
  intros Hrun.
  assert (Hs : s' = match mark step with
                    | Some ((_ :: _) as l) =>
                      registry_mark env l
                        {| pty_input := pty_input s ++ written;
                           records := records s |}
                    | _ => {| pty_input := pty_input s ++ written;
                              records := records s |}
                    end).
  { destruct (expect step) as [cond|].
    - destruct (wait_until _ _ _ _ _) as [[|]|]; congruence.
    - congruence. }
  rewrite Hs.
  exact (Hmark {| pty_input := pty_input s ++ written; records := records s |}).
Qed.
End planning.

(** A wait for the empty text, with a deadline one second ahead and
    a pass of the wait two seconds later. *)
Lemma hollow_expectation_never_met_witness :
  let w := {| wait_kind := py "wait";
              wait_expect := {| exp_contains := Some []; exp_regex := None |};
              wait_timeout := 1 |} in
  let env := {| history := fun _ => OutputBuffer_new; wait_start := 0;
                evals := [2%Q]; read_back := 2; mark_offset := 0;
                mark_time := 0 |} in
  exists ws,
    _plan_steps (rt := LiteralRuntime) [Wait w] = inr [StepWait ws]
    /\ (forall text, matches (rt := LiteralRuntime) (condition ws) text = false)
    /\ _run_wait_step (rt := LiteralRuntime) ws env <> Some (inr tt)
    /\ ((exists late, late ∈ evals env
                      /\ (wait_start env + wait_timeout w <= late)%Q) ->
        exists msg,
          _run_wait_step (rt := LiteralRuntime) ws env
          = Some (inl (TimeoutError msg))).
Proof.
  intros w env.
  apply (hollow_expectation_never_met (rt := LiteralRuntime) w env).
  - split; [left; discriminate | intros pattern _; reflexivity].
  - split; [right; reflexivity | left; reflexivity].
Defined.

(** X16. When the plan of a scenario is executed and every step
    returns, the bytes written to the PTY are those of the commands
    in order, each followed by a line feed when [send_newline] is set
    and the bytes do not end with one already; the keyframes recorded
    bear, in order, the marks of the commands that are not empty and
    the labels of the snapshots; and the window has the size of the
    last resize, if there is one. *)
Theorem scenario_run_effects {rt : PyRuntime} (steps : list ScenarioStep)
    (planned : list Step) (envs : nat -> step_env) (st st' : run_state) :
  _plan_steps steps = inr planned ->
  _execute_steps planned envs st = Some (inr st') ->
  pty_input (run_session st')
  = pty_input (run_session st) ++ scenario_input steps
  /\ map label (records (run_session st'))
     = map label (records (run_session st)) ++ scenario_labels steps
  /\ run_winsize st' = scenario_winsize steps (run_winsize st).
Proof.
  intros Hplan Hrun.
  assert (Hall : Forall2 plans_to steps planned).
  { destruct (plan_from_plannable steps []
                (plan_from_inr steps [] planned Hplan)) as (new & Hrun' & Hnew).
    unfold _plan_steps in Hplan. rewrite Hplan in Hrun'.
    injection Hrun' as ->. exact Hnew. }
  clear Hplan. revert envs st Hrun.
  induction Hall as [|step out steps planned Hstep _ IH]; intros envs st Hrun.
  - injection Hrun as <-. unfold scenario_input, scenario_labels. simpl.
    rewrite !app_nil_r. auto.
  - unfold scenario_input, scenario_labels, scenario_winsize in *.
    destruct step as [c|w|sn|r|k t], out as [i|ws|l|size|t'];
      simpl in Hstep; try contradiction; simpl in Hrun |- *.
    + destruct Hstep as (Hpay & Hmark & _ & _ & _ & Hnl).
      destruct (_run_input_step i (envs O) (run_session st)) as [[e|s]|] eqn:Hin;
        try discriminate.
      destruct (run_input_step_effects i (envs O) _ s Hin) as [Hbytes Hlabels].
      destruct (IH _ _ Hrun) as (H1 & H2 & H3). cbn [run_session run_winsize] in *.
      rewrite H1, H2, H3, Hbytes, Hlabels, Hpay, Hmark, Hnl, <- !app_assoc.
      auto.
    + destruct (_run_wait_step ws (envs O)) as [[e|u]|]; try discriminate.
      exact (IH _ _ Hrun).
    + subst l. destruct (IH _ _ Hrun) as (H1 & H2 & H3).
      cbn [run_session run_winsize registry_mark pty_input records] in *.
      rewrite H1, H2, H3, map_app, <- !app_assoc. auto.
    + destruct Hstep as [Hrows Hcols]. unfold resize, _apply_winsize in Hrun.
      destruct (ushort (rows size) && ushort (cols size)); try discriminate.
      destruct (IH _ _ Hrun) as (H1 & H2 & H3).
      cbn [run_session run_winsize] in *. rewrite H1, H2, H3.
      destruct size as [rs cs]. simpl in Hrows, Hcols. subst. auto.
Qed.

(** A scenario that types [ls] with a mark, takes a snapshot and
    resizes the window. *)
Lemma scenario_run_effects_witness :
  let steps :=
    [ Command {| cmd_kind := py "command"; run := py "ls";
                 cmd_mark := Some (py "listed"); cmd_expect := None;
                 cmd_timeout := None; cmd_delay := 0;
                 cmd_send_newline := true |};
      Snapshot {| snap_kind := py "snapshot"; snap_label := py "done" |};
      Resize {| resize_kind := py "resize"; resize_rows := 30;
                resize_cols := 100 |} ] in
  let env := {| history := fun _ => OutputBuffer_new; wait_start := 0;
                evals := []; read_back := 0; mark_offset := 0;
                mark_time := 0 |} in
  let st := {| run_session := {| pty_input := []; records := [] |};
               run_winsize := PtySize_default |} in
  exists planned st',
    _plan_steps (rt := LiteralRuntime) steps = inr planned
    /\ _execute_steps (rt := LiteralRuntime) planned (fun _ => env) st
       = Some (inr st')
    /\ pty_input (run_session st') = bytes_lit [108; 115; 10]%N
    /\ map label (records (run_session st')) = [py "listed"; py "done"]
    /\ run_winsize st' = {| rows := 30; cols := 100 |}.
Proof.
  intros steps env st. eexists _, _.
  split; [reflexivity|]. split; [reflexivity|].
  exact (scenario_run_effects (rt := LiteralRuntime) steps _ (fun _ => env)
           st _ eq_refl eq_refl).
Defined.

(** ** Replay parser: the bytes consumed *)

Lemma reads_from_nonempty (chunk_size : Z) (fuel : nat) (h : pybytes) :
  Forall (fun chunk => chunk <> []) (reads_from fuel chunk_size h).
Proof.
  revert h. induction fuel as [|fuel IH]; intros h; simpl; [constructor|].
  destruct (handle_read chunk_size h) as [e|[[|b raw] rest]];
    try constructor; [discriminate | apply IH].
Qed.

Lemma total_len_take (chunks : list pybytes) (k : nat) (chunk : pybytes) :
  chunks !! k = Some chunk ->
  0 <= total_len (take k chunks)
  /\ total_len (take (S k) chunks) = total_len (take k chunks) + len chunk
  /\ total_len (take (S k) chunks) <= total_len chunks.
Proof.
  intros Hk. split; [apply total_len_nonneg|]. split.
  - rewrite (take_S_r _ _ _ Hk), total_len_app. simpl. lia.
  - rewrite <- (take_drop (S k) chunks) at 2. rewrite total_len_app.
    pose proof (total_len_nonneg (drop (S k) chunks)). lia.
Qed.

(** X17. For a chunk size that [read] accepts, [parse] returns, and
    the parser's count of bytes consumed is then the length of the
    file, except with the chunk size zero, for which nothing is read
    and the count is zero; every state of the result has an offset
    that is positive and at most that count, and every warning an
    offset that is not negative and less than it. With the chunk size
    zero the result has therefore no state and no warning, whatever
    the file holds. *)
Theorem parse_consumes_file {vt : VtEngine} (p : AnsiReplayParser)
    (data : pybytes) (chunk_size : Z) :
  -1 <= chunk_size < 2 ^ 63 ->
  exists p' r,
    parse p data chunk_size = Some (inr (p', r))
    /\ _bytes_consumed p' = (if chunk_size =? 0 then 0 else len data)
    /\ Forall (fun s => 0 < state_offset s <= _bytes_consumed p') (states r)
    /\ Forall (fun e => 0 <= entry_offset e < _bytes_consumed p') (warnings r).
Proof.
  intros [Hn _]. unfold parse.
  set (st0 := {| ps_screen := screen_new (cols (_size p)) (rows (_size p));
                 ps_states := []; ps_collector := []; ps_consumed := 0;
                 ps_handle := data |}).
  destruct (parse_loop_run (_handler p) chunk_size Hn (S (length data)) st0)
    as (st' & new & Hrun & Hcons & Hstates & Hnew & _); [simpl; lia|].
  destruct (parse_loop_warnings (_handler p) chunk_size Hn (S (length data)) st0)
    as (st2 & warns & Hrun2 & Hcoll & Hwarns & _); [simpl; lia|].
  rewrite Hrun in Hrun2. injection Hrun2 as <-.
  cbv zeta in Hcons, Hnew, Hwarns.
  change (ps_handle st0) with data in Hcons, Hnew, Hwarns.
  change (ps_consumed st0) with 0 in Hcons, Hnew, Hwarns.
  change (ps_states st0 ++ new) with new in Hstates.
  change (ps_collector st0 ++ warns) with warns in Hcoll.
  fold (reads chunk_size data) in Hcons, Hnew, Hwarns.
  pose proof (reads_from_nonempty chunk_size (S (length data)) data) as Hne.
  fold (reads chunk_size data) in Hne.
  rewrite Hrun. eexists _, _. split; [reflexivity|].
  cbn [_bytes_consumed states warnings]. rewrite Hcons, Hstates, Hcoll.
  split; [|split].
  - destruct (Z.eqb_spec chunk_size 0) as [-> | Hnz].
    + reflexivity.
    + rewrite total_len_concat. unfold reads.
      rewrite (reads_from_concat chunk_size Hn Hnz) by lia. lia.
  - apply Forall_lookup. intros i s Hi.
    destruct (Hnew i s Hi) as (k & chunk & Hk & _ & ->).
    destruct (total_len_take _ _ _ Hk) as (H0 & Hstep & Hle).
    pose proof (proj1 (Forall_lookup _ _) Hne k chunk Hk) as Hchunk.
    assert (0 < len chunk) by (unfold len; destruct chunk; [contradiction|simpl; lia]).
    lia.
  - apply Forall_forall. intros e He.
    apply Hwarns in He. destruct He as (k & chunk & Hk & _ & ->).
    destruct (total_len_take _ _ _ Hk) as (H0 & Hstep & Hle).
    pose proof (proj1 (Forall_lookup _ _) Hne k chunk Hk) as Hchunk.
    assert (0 < len chunk) by (unfold len; destruct chunk; [contradiction|simpl; lia]).
    lia.
Qed.

(** A file of two chunks of seven bytes, each with a DEC private
    sequence, read seven bytes at a time. *)
Lemma parse_consumes_file_witness :
  let p := {| _size := PtySize_default; _handler := all_false;
              _collector := []; _bytes_consumed := 0 |} in
  let data := bytes_lit [27; 91; 63; 50; 53; 108; 97;
                         27; 91; 63; 50; 53; 104; 98]%N in
  exists p' r,
    parse (vt := TextLog) p data 7 = Some (inr (p', r))
    /\ _bytes_consumed p' = 14
    /\ Forall (fun s => 0 < state_offset s <= _bytes_consumed p') (states r)
    /\ Forall (fun e => 0 <= entry_offset e < _bytes_consumed p') (warnings r).
Proof.
  intros p data.
  apply (parse_consumes_file (vt := TextLog) p data 7).
  split; [lia | reflexivity].
Defined.
